(** * idb.js: IDb, LSQuery, LSDB, LSDBUtil and LSDBQuery

    A shallow embedding of the document store of [src/idb.js] and the
    properties of its query engine, CRUD operations and import/export.

    Scope of the model.
    - Stored data is JSON data: what [JSON.parse] returns.  Objects are finite
      maps from property names to values, arrays are lists.  The documents
      handed to [insert] and [update] are JSON objects too.
    - JavaScript numbers are modelled on their integer fragment ([Z]); [NaN]
      only arises from [ToNumber].  Numeric text with a fraction, an exponent
      or a radix prefix denotes no number of the fragment and is read as
      [NaN].
    - Property names inherited from the built-in prototypes ([toString],
      [constructor], ...) are not part of the data: [has_property] and
      [get_property] read own properties.  The names concerned are listed in
      [prototype_names], and what is proved of dot-path resolution as such
      is stated for paths that stay clear of them.
    - Two object operands of [==] or [===] never are the same reference here:
      one side always comes out of a fresh [JSON.parse] (or a structured
      clone), the other one from the caller.
    - [localStorage] is a finite map from keys to the parsed text they hold;
      every key of a store's namespace holds an array of documents, which is
      what the code writes there.
    - [crypto.randomUUID] is an external source of identifiers: a sequence
      [uuid : nat -> string] read through a counter kept in the state.
    - An IndexedDB database is a finite map from object store names to object
      stores with key path ["id"] and a key generator, as [IDb.init] creates
      them.  Keys are numbers and strings; an asynchronous method is modelled
      by the outcome its promise settles with and the database it leaves
      once its transaction has finished. *)

From Stdlib Require Import ZArith Ascii String Sorted Permutation.
From stdpp Require Import gmap strings list fin_maps pretty sorting.

Set Warnings "-register-all".
Open Scope string_scope.

(** ** JavaScript values and the operators the code applies to them *)

Module JS.

Inductive json : Type :=
  | JNull
  | JBool (b : bool)
  | JNum (z : Z)
  | JStr (s : string)
  | JArr (l : list json)
  | JObj (m : gmap string json).

(** A JavaScript value of this program: JSON data or [undefined]. *)
Inductive value : Type :=
  | Undefined
  | Val (j : json).

Inductive number : Type :=
  | NaN
  | Num (z : Z).

Inductive error : Type :=
  | TypeError
  | NotFoundError
  | ConstraintError
  | DataError
  | InvalidAccessError
  | UserError (msg : string).

(** The outcome of an expression that may throw. *)
Inductive result (A : Type) : Type :=
  | Ok (a : A)
  | Throw (e : error).
Arguments Ok {A} a.
Arguments Throw {A} e.

Definition bind {A B} (r : result A) (f : A -> result B) : result B :=
  match r with
  | Ok a => f a
  | Throw e => Throw e
  end.

Notation "'try' x <- r 'in' k" := (bind r (fun x => k))
  (at level 10, x name, r at level 100, k at level 200).

Definition is_ok {A} (r : result A) : bool :=
  match r with Ok _ => true | Throw _ => false end.

(** *** ToString, ToPrimitive, ToNumber *)

Definition join (sep : string) (parts : list string) : string :=
  match parts with
  | [] => ""
  | p :: ps => fold_left (fun acc q => acc ++ sep ++ q) ps p
  end.

(** [ToString] of JSON data.  An array prints as [join(",")] does: [null]
    elements print as the empty string.  A plain object prints as
    ["[object Object]"]. *)
Fixpoint ToString (j : json) : string :=
  match j with
  | JNull => "null"
  | JBool true => "true"
  | JBool false => "false"
  | JNum z => pretty z
  | JStr s => s
  | JArr l =>
      join "," (map (fun x => match x with JNull => "" | _ => ToString x end) l)
  | JObj _ => "[object Object]"
  end.

Definition is_object (v : value) : bool :=
  match v with
  | Val (JArr _) | Val (JObj _) => true
  | _ => false
  end.

(** [ToPrimitive]: [valueOf] of an array or plain object returns the object
    itself, so the result is its [toString]. *)
Definition ToPrimitive (v : value) : value :=
  match v with
  | Val (JArr l) => Val (JStr (ToString (JArr l)))
  | Val (JObj m) => Val (JStr (ToString (JObj m)))
  | _ => v
  end.

Definition is_ws (c : ascii) : bool :=
  let n := nat_of_ascii c in
  ((9 <=? n)%nat && (n <=? 13)%nat) || (n =? 32)%nat.

Fixpoint trim_left (s : string) : string :=
  match s with
  | String c r => if is_ws c then trim_left r else s
  | EmptyString => EmptyString
  end.

Definition trim (s : string) : string :=
  String.rev (trim_left (String.rev (trim_left s))).

Definition digit_of (c : ascii) : option Z :=
  let n := nat_of_ascii c in
  if ((48 <=? n)%nat && (n <=? 57)%nat) then Some (Z.of_nat n - 48)%Z else None.

Fixpoint digits_value (s : string) (acc : Z) : option Z :=
  match s with
  | EmptyString => Some acc
  | String c r =>
      match digit_of c with
      | Some d => digits_value r (10 * acc + d)%Z
      | None => None
      end
  end.

Definition unsigned_literal (s : string) : number :=
  match s with
  | EmptyString => NaN
  | _ => match digits_value s 0 with Some z => Num z | None => NaN end
  end.

(** [StringToNumber]: white space is trimmed, the empty text is [0], then an
    optionally signed decimal literal. *)
Definition StringToNumber (s : string) : number :=
  match trim s with
  | EmptyString => Num 0
  | String "+" r => unsigned_literal r
  | String "-" r =>
      match unsigned_literal r with Num z => Num (- z) | NaN => NaN end
  | t => unsigned_literal t
  end.

Definition ToNumber (v : value) : number :=
  match ToPrimitive v with
  | Undefined => NaN
  | Val JNull => Num 0
  | Val (JBool true) => Num 1
  | Val (JBool false) => Num 0
  | Val (JNum z) => Num z
  | Val (JStr s) => StringToNumber s
  | Val _ => NaN
  end.

Definition ToBoolean (v : value) : bool :=
  match v with
  | Undefined | Val JNull | Val (JBool false) => false
  | Val (JNum z) => negb (z =? 0)%Z
  | Val (JStr s) => negb (String.eqb s "")
  | _ => true
  end.

(** *** Equality *)

Definition number_eqb (a b : number) : bool :=
  match a, b with
  | Num x, Num y => (x =? y)%Z
  | _, _ => false
  end.

(** [x === y]. *)
Definition strict_eq (x y : value) : bool :=
  match x, y with
  | Undefined, Undefined => true
  | Val JNull, Val JNull => true
  | Val (JBool a), Val (JBool b) => Bool.eqb a b
  | Val (JNum a), Val (JNum b) => (a =? b)%Z
  | Val (JStr a), Val (JStr b) => String.eqb a b
  | _, _ => false
  end.

(** [x == y] when both operands are undefined, null, a number or a string
    (steps 1 to 6 of IsLooselyEqual). *)
Definition loose_eq_base (x y : value) : bool :=
  match x, y with
  | Undefined, Undefined | Undefined, Val JNull
  | Val JNull, Undefined | Val JNull, Val JNull => true
  | Val (JNum a), Val (JNum b) => (a =? b)%Z
  | Val (JStr a), Val (JStr b) => String.eqb a b
  | Val (JNum a), Val (JStr s) => number_eqb (Num a) (StringToNumber s)
  | Val (JStr s), Val (JNum b) => number_eqb (StringToNumber s) (Num b)
  | _, _ => false
  end.

Definition is_string_or_number (v : value) : bool :=
  match v with
  | Val (JNum _) | Val (JStr _) => true
  | _ => false
  end.

(** [x == y] when no operand is a boolean: an object meets a string or a
    number through [ToPrimitive] (steps 11 and 12). *)
Definition loose_eq_noBool (x y : value) : bool :=
  match is_object x, is_object y with
  | true, true => false
  | false, true => is_string_or_number x && loose_eq_base x (ToPrimitive y)
  | true, false => is_string_or_number y && loose_eq_base (ToPrimitive x) y
  | false, false => loose_eq_base x y
  end.

Definition bool_number (b : bool) : value :=
  Val (JNum (if b then 1 else 0)).

(** [x == y]: a boolean operand is first turned into a number (steps 9, 10). *)
Definition loose_eq (x y : value) : bool :=
  match x, y with
  | Val (JBool a), Val (JBool b) => Bool.eqb a b
  | Val (JBool a), _ => loose_eq_noBool (bool_number a) y
  | _, Val (JBool b) => loose_eq_noBool x (bool_number b)
  | _, _ => loose_eq_noBool x y
  end.

(** *** Ordering *)

(** IsLessThan: [None] is the specification's [undefined] (a [NaN] operand). *)
Definition IsLessThan (x y : value) : option bool :=
  match ToPrimitive x, ToPrimitive y with
  | Val (JStr a), Val (JStr b) => Some (String.ltb a b)
  | px, py =>
      match ToNumber px, ToNumber py with
      | Num a, Num b => Some (a <? b)%Z
      | _, _ => None
      end
  end.

Definition is_true (r : option bool) : bool :=
  match r with Some true => true | _ => false end.

Definition is_false (r : option bool) : bool :=
  match r with Some false => true | _ => false end.

Definition js_lt (x y : value) : bool := is_true (IsLessThan x y).
Definition js_gt (x y : value) : bool := is_true (IsLessThan y x).
Definition js_lte (x y : value) : bool := is_false (IsLessThan y x).
Definition js_gte (x y : value) : bool := is_false (IsLessThan x y).

(** *** Strings and property access *)

(** [s.split(".")]. *)
Fixpoint split_dot (s : string) : list string :=
  match s with
  | EmptyString => [""]
  | String c r =>
      if Ascii.eqb c "." then "" :: split_dot r
      else match split_dot r with
           | h :: t => String c h :: t
           | [] => [String c ""]
           end
  end.

(** The array index a property name denotes, if it is a canonical one. *)
Definition array_index (k : string) : option nat :=
  match k with
  | EmptyString => None
  | _ =>
      match digits_value k 0 with
      | Some z => if String.eqb (pretty z) k then Some (Z.to_nat z) else None
      | None => None
      end
  end.

(** The string-keyed members of [Object.prototype] and of [Array.prototype]
    (ECMAScript 2023, Annex B included): the names that the objects and
    arrays [JSON.parse] makes inherit.  [length] is left out, since an
    array has it as its own property and an object does not inherit it. *)
Definition prototype_names : list string :=
  [ "constructor"; "hasOwnProperty"; "isPrototypeOf"; "propertyIsEnumerable";
    "toLocaleString"; "toString"; "valueOf"; "__proto__";
    "__defineGetter__"; "__defineSetter__"; "__lookupGetter__";
    "__lookupSetter__";
    "at"; "concat"; "copyWithin"; "entries"; "every"; "fill"; "filter";
    "find"; "findIndex"; "findLast"; "findLastIndex"; "flat"; "flatMap";
    "forEach"; "includes"; "indexOf"; "join"; "keys"; "lastIndexOf"; "map";
    "pop"; "push"; "reduce"; "reduceRight"; "reverse"; "shift"; "slice";
    "some"; "sort"; "splice"; "toReversed"; "toSorted"; "toSpliced";
    "unshift"; "values"; "with" ].

(** [k in o] for an object or array [o], on its own properties; a
    [TypeError] for a primitive.  (Under a name of [prototype_names] the
    code may find an inherited member instead.) *)
Definition has_property (o : json) (k : string) : result bool :=
  match o with
  | JObj m => Ok (bool_decide (is_Some (m !! k)))
  | JArr l =>
      Ok (String.eqb k "length" ||
          match array_index k with
          | Some i => bool_decide (i < length l)%nat
          | None => false
          end)
  | _ => Throw TypeError
  end.

Definition of_option (o : option json) : value :=
  match o with Some j => Val j | None => Undefined end.

(** [o[k]] for [o] other than undefined and null. *)
Definition get_property (o : json) (k : string) : value :=
  match o with
  | JObj m => of_option (m !! k)
  | JArr l =>
      if String.eqb k "length" then Val (JNum (Z.of_nat (length l)))
      else match array_index k with
           | Some i => of_option (l !! i)
           | None => Undefined
           end
  | JStr s =>
      if String.eqb k "length" then Val (JNum (Z.of_nat (String.length s)))
      else match array_index k with
           | Some i =>
               match String.get i s with
               | Some c => Val (JStr (String c ""))
               | None => Undefined
               end
           | None => Undefined
           end
  | _ => Undefined
  end.

End JS.

Import JS.

(** A document: a JSON object. *)
Abbreviation doc := (gmap string json).

(** ** Array methods with callbacks that may throw *)

Section ArrayMethods.
Context {A : Type}.

(** [arr.filter(p)]. *)
Fixpoint array_filter (p : A -> result bool) (arr : list A) : result (list A) :=
  match arr with
  | [] => Ok []
  | x :: rest =>
      try b <- p x in
      try rest' <- array_filter p rest in
      Ok (if b then x :: rest' else rest')
  end.

(** [arr.every(p)]: stops at the first element that fails. *)
Fixpoint array_every (p : A -> result bool) (arr : list A) : result bool :=
  match arr with
  | [] => Ok true
  | x :: rest => try b <- p x in if b then array_every p rest else Ok false
  end.

(** [arr.some(p)]: stops at the first element that passes. *)
Fixpoint array_some (p : A -> result bool) (arr : list A) : result bool :=
  match arr with
  | [] => Ok false
  | x :: rest => try b <- p x in if b then Ok true else array_some p rest
  end.

(** [arr.findIndex(p)]; [None] is [-1]. *)
Fixpoint findIndex (p : A -> bool) (arr : list A) : option nat :=
  match arr with
  | [] => None
  | x :: rest => if p x then Some 0%nat else S <$> findIndex p rest
  end.

(** [arr.sort(cmp)].  The language prescribes a stable sort; for a
    comparator that orders the elements consistently every stable sort
    returns the list built here, where an element is placed before the
    first one it does not compare greater than. *)
Fixpoint sort_insert (cmp : A -> A -> Z) (x : A) (sorted : list A) : list A :=
  match sorted with
  | [] => [x]
  | y :: rest =>
      if (0 <? cmp x y)%Z then y :: sort_insert cmp x rest else x :: y :: rest
  end.

Definition array_sort (cmp : A -> A -> Z) (arr : list A) : list A :=
  foldr (sort_insert cmp) [] arr.
End ArrayMethods.

(** ** LSQuery *)

Module LSQuery.
Section LSQuery.
Context {A : Type}.

Definition where_ (predicate : A -> result bool) (data : list A)
  : result (list A) :=
  array_filter predicate data.

Definition ascending (selector : A -> value) (a b : A) : Z :=
  let x := selector a in
  let y := selector b in
  if js_gt x y then 1 else if js_lt x y then (-1) else 0.

Definition descending (selector : A -> value) (a b : A) : Z :=
  let x := selector a in
  let y := selector b in
  if js_lt x y then 1 else if js_gt x y then (-1) else 0.

Definition orderBy (selector : A -> value) (data : list A) : list A :=
  array_sort (ascending selector) data.

Definition orderByDescending (selector : A -> value) (data : list A) : list A :=
  array_sort (descending selector) data.

Definition select {B} (selector : A -> B) (data : list A) : list B :=
  map selector data.

Definition toList (data : list A) : list A := data.
End LSQuery.
End LSQuery.

(** ** LSDB *)

(** The state the store runs in: [localStorage] and the position in the
    sequence of identifiers [crypto.randomUUID] draws from. *)
Record world : Type := World {
  localStorage : gmap string (list doc);
  uuid_count : nat
}.

Module LSDB.

(** [s.replace(pat, "")]: the first occurrence of [pat] is removed. *)
Fixpoint remove_first (pat s : string) : string :=
  if String.prefix pat s
  then String.substring (String.length pat) (String.length s - String.length pat) s
  else match s with
       | EmptyString => EmptyString
       | String c r => String c (remove_first pat r)
       end.

(** The object [bucket] returns: its methods, closed over the bucket name. *)
Record accessor : Type := Accessor {
  insert : doc -> world -> doc * world;
  all : world -> list doc;
  filterBy : gmap string value -> world -> list doc;
  (** [None] is the [false] the code returns. *)
  update : value -> doc -> world -> option doc * world;
  delete : value -> world -> bool * world
}.

Section LSDB.
(** [crypto.randomUUID], as a sequence. *)
Variable uuid : nat -> string.
(** [this.prefix]. *)
Variable prefix : string.

Definition _key (bucket : string) : string := prefix ++ bucket.

Definition _load (bucket : string) (w : world) : list doc :=
  match localStorage w !! _key bucket with
  | Some data => data
  | None => []
  end.

Definition _save (bucket : string) (data : list doc) (w : world) : world :=
  World (<[_key bucket := data]> (localStorage w)) (uuid_count w).

Definition _ensure (bucket : string) (w : world) : world :=
  match localStorage w !! _key bucket with
  | Some _ => w
  | None => World (<[_key bucket := []]> (localStorage w)) (uuid_count w)
  end.

Definition listBuckets (w : world) : list string :=
  map (fun kv => remove_first prefix (fst kv))
      (List.filter (fun kv => String.prefix prefix (fst kv))
                   (map_to_list (localStorage w))).

Definition createBucket (bucket : string) (w : world) : world :=
  _ensure bucket w.

Definition deleteBucket (bucket : string) (w : world) : world :=
  World (base.delete (_key bucket) (localStorage w)) (uuid_count w).

(** [x.id]. *)
Definition id_of (x : doc) : value := of_option (x !! "id").

Definition randomUUID (w : world) : string * world :=
  (uuid (uuid_count w), World (localStorage w) (S (uuid_count w))).

(** [bucket(bucketName)]: the bucket is created when missing, and the
    accessor closes over its name. *)
Definition bucket (bucketName : string) (w : world) : accessor * world :=
  ({| insert := fun item w =>
        let list := _load bucketName w in
        let '(u, w) := randomUUID w in
        (** [{ id: crypto.randomUUID(), ...item }] *)
        let newItem : doc := item ∪ {[ "id" := JStr u ]} in
        (newItem, _save bucketName (list ++ [newItem]) w);
      all := fun w => _load bucketName w;
      filterBy := fun props w =>
        let list := _load bucketName w in
        List.filter
          (fun item : doc =>
             forallb (fun kv : string * value =>
                        strict_eq (of_option (item !! fst kv)) (snd kv))
                     (map_to_list props))
          list;
      update := fun id newData w =>
        let list := _load bucketName w in
        match findIndex (fun x => strict_eq (id_of x) id) list with
        | None => (None, w)
        | Some i =>
            (** [{ ...list[i], ...newData }] *)
            let merged : doc := newData ∪ default ∅ (list !! i) in
            (Some merged, _save bucketName (<[i := merged]> list) w)
        end;
      delete := fun id w =>
        let list := _load bucketName w in
        let newList :=
          List.filter (fun x => negb (strict_eq (id_of x) id)) list in
        (true, _save bucketName newList w)
   |}, _ensure bucketName w).
End LSDB.
End LSDB.

(** ** LSDBUtil *)

(** The text [JSON.stringify] produces and [JSON.parse] reads: either no
    JSON at all, or the text of a map from bucket names to arrays of
    documents. *)
Inductive json_text : Type :=
  | Malformed
  | Text (data : gmap string (list doc)).

(** [obj[name] = items] on an object made by [{}], [items] an array.  The
    name ["__proto__"] reaches the setter [Object.prototype] has for it:
    [items] becomes the prototype of [obj] and no property is added, so
    [JSON.stringify] writes no entry for it. *)
Definition assign (name : string) (items : list doc)
    (obj : gmap string (list doc)) : gmap string (list doc) :=
  if String.eqb name "__proto__" then obj else <[name := items]> obj.

Module LSDBUtil.
Section LSDBUtil.
Variable uuid : nat -> string.

(** [const lsdb = new LSDB("APP_")]. *)
Definition prefix : string := "APP_".

Definition lsdbInstance_bucket := LSDB.bucket uuid prefix.

(** [buckets.forEach(b => { dump[b] = ...bucket(b).all().toList(); })]. *)
Definition dump_loop (buckets : list string)
    (st : gmap string (list doc) * world) : gmap string (list doc) * world :=
  foldl (fun (st : gmap string (list doc) * world) b =>
           let '(dump, w) := st in
           let '(acc, w) := lsdbInstance_bucket b w in
           (assign b (LSQuery.toList (LSDB.all acc w)) dump, w))
        st buckets.

(** [dump(bucketName = null)]; the empty name is falsy as [null] is. *)
Definition dump (bucketName : option string) (w : world) : json_text * world :=
  let buckets :=
    match bucketName with
    | Some b => if String.eqb b "" then LSDB.listBuckets prefix w else [b]
    | None => LSDB.listBuckets prefix w
    end in
  let '(dump, w) := dump_loop buckets (∅, w) in
  (Text dump, w).

Definition import_bucket (overwrite : bool) (w : world)
    (entry : string * list doc) : world :=
  let '(bucketName, items) := entry in
  let w :=
    if overwrite then
      LSDB.createBucket prefix bucketName (LSDB.deleteBucket prefix bucketName w)
    else if bool_decide (bucketName ∈ LSDB.listBuckets prefix w) then w
    else LSDB.createBucket prefix bucketName w in
  foldl (fun w item =>
           let '(acc, w) := lsdbInstance_bucket bucketName w in
           snd (LSDB.insert acc item w))
        w items.

(** [import(jsonStr, overwrite = true)]. *)
Definition import (jsonStr : json_text) (overwrite : bool) (w : world) : world :=
  match jsonStr with
  | Malformed => w
  | Text data => foldl (import_bucket overwrite) w (map_to_list data)
  end.
End LSDBUtil.
End LSDBUtil.

(** ** LSDBQuery *)

Module LSDBQuery.

Record filter : Type := Filter {
  prop : string;
  op : string;
  value_ : value
}.

Record t : Type := Query {
  bucket : string;
  filters : list filter;
  orGroups : list (list filter)
}.

Definition new (bucket : string) : t := Query bucket [] [].

Definition where_ (prop op : string) (v : value) (q : t) : t :=
  Query (bucket q) (filters q ++ [Filter prop op v]) (orGroups q).

Definition orWhere (prop op : string) (v : value) (q : t) : t :=
  Query (bucket q) (filters q) (orGroups q ++ [[Filter prop op v]]).

Definition orGroup (groupFilters : list filter) (q : t) : t :=
  Query (bucket q) (filters q) (orGroups q ++ [groupFilters]).

(** One step of the [reduce] of [_getNestedValue]:
    [(o && k in o) ? o[k] : undefined]. *)
Definition nested_step (o : value) (k : string) : result value :=
  match o with
  | Undefined => Ok Undefined
  | Val j =>
      if ToBoolean o then
        try present <- has_property j k in
        Ok (if present then get_property j k else Undefined)
      else Ok Undefined
  end.

Fixpoint reduce_path (ks : list string) (o : value) : result value :=
  match ks with
  | [] => Ok o
  | k :: rest => try o' <- nested_step o k in reduce_path rest o'
  end.

Definition _getNestedValue (obj : value) (prop : string) : result value :=
  reduce_path (split_dot prop) obj.

Definition _compare (val : value) (op : string) (expected : value) : bool :=
  if String.eqb op "eq" then loose_eq val expected
  else if String.eqb op "neq" then negb (loose_eq val expected)
  else if String.eqb op "lt" then js_lt val expected
  else if String.eqb op "lte" then js_lte val expected
  else if String.eqb op "gt" then js_gt val expected
  else if String.eqb op "gte" then js_gte val expected
  else loose_eq val expected.

(** The callback of [every] and [some]: one predicate on one item. *)
Definition test (item : value) (f : filter) : result bool :=
  try val <- _getNestedValue item (prop f) in
  Ok (_compare val (op f) (value_ f)).

Definition _matchesAnd (q : t) (item : value) : result bool :=
  array_every (test item) (filters q).

Definition _matchesOr (q : t) (item : value) : result bool :=
  match orGroups q with
  | [] => Ok true
  | groups => array_some (fun group => array_some (test item) group) groups
  end.

(** The callback of [where] in [execute]:
    [item => this._matchesAnd(item) && this._matchesOr(item)]. *)
Definition keep (q : t) (item : doc) : result bool :=
  try a <- _matchesAnd q (Val (JObj item)) in
  if a then _matchesOr q (Val (JObj item)) else Ok false.

(** [execute()]: the result, and the state the bucket accessor leaves. *)
Definition execute (uuid : nat -> string) (q : t) (w : world)
    : result (list doc) * world :=
  let '(acc, w) := LSDBUtil.lsdbInstance_bucket uuid (bucket q) w in
  (try found <- LSQuery.where_ (keep q) (LSDB.all acc w) in
   Ok (LSQuery.toList found), w).

End LSDBQuery.

(** ** IDb *)

Module IDb.

(** The keys of the model: numbers and strings. *)
Inductive key : Type :=
  | KNum (z : Z)
  | KStr (s : string).

#[global] Instance key_eq_dec : EqDecision key.
Proof. solve_decision. Defined.

#[global] Instance key_countable : Countable key.
Proof.
  refine (inj_countable'
            (fun k => match k with KNum z => inl z | KStr s => inr s end)
            (fun x => match x with inl z => KNum z | inr s => KStr s end) _).
  by intros [].
Defined.

Definition to_key (v : value) : option key :=
  match v with
  | Val (JNum z) => Some (KNum z)
  | Val (JStr s) => Some (KStr s)
  | _ => None
  end.

Definition of_key (k : key) : json :=
  match k with
  | KNum z => JNum z
  | KStr s => JStr s
  end.

(** The order of keys: numbers before strings. *)
Definition key_leb (a b : key) : bool :=
  match a, b with
  | KNum x, KNum y => (x <=? y)%Z
  | KNum _, KStr _ => true
  | KStr _, KNum _ => false
  | KStr x, KStr y => String.leb x y
  end.

(** An object store created with [{ keyPath: "id", autoIncrement: true }]. *)
Record objectStore : Type := ObjectStore {
  records : gmap key doc;
  generator : Z
}.

Abbreviation database := (gmap string objectStore).

(** The requests a store handle queues on its transaction. *)
Inductive request : Type :=
  | RAdd (bucket : string) (data : doc)
  | RPut (bucket : string) (data : doc)
  | RDelete (bucket : string) (k : key).

(** The key of [data] at the key path, checked when the request is made. *)
Definition extract_key (data : doc) : result (option key) :=
  match data !! "id" with
  | None => Ok None
  | Some j =>
      match to_key (Val j) with
      | Some k => Ok (Some k)
      | None => Throw DataError
      end
  end.

Definition bump (k : key) (g : Z) : Z :=
  match k with
  | KNum z => if (g <=? z)%Z then (z + 1)%Z else g
  | KStr _ => g
  end.

(** Storing a record: [add] refuses a key that is taken, [put] replaces the
    record; without key the generator supplies one and it is written to the
    record's [id]. *)
Definition store_record (no_overwrite : bool) (data : doc) (s : objectStore)
    : result (key * objectStore) :=
  try k <- extract_key data in
  match k with
  | None =>
      let k := KNum (generator s) in
      Ok (k, ObjectStore (<[k := <["id" := of_key k]> data]> (records s))
                         (generator s + 1))
  | Some k =>
      if no_overwrite && bool_decide (is_Some (records s !! k))
      then Throw ConstraintError
      else Ok (k, ObjectStore (<[k := data]> (records s)) (bump k (generator s)))
  end.

Definition delete_record (k : key) (s : objectStore) : objectStore :=
  ObjectStore (base.delete k (records s)) (generator s).

(** [store.getAll()]: the records in the order of their keys. *)
Definition record_le (a b : key * doc) : Prop :=
  key_leb (fst a) (fst b) = true.

#[global] Instance record_le_dec a b : Decision (record_le a b).
Proof. unfold record_le. apply _. Defined.

Definition all_records (s : objectStore) : list doc :=
  map snd (merge_sort record_le (map_to_list (records s))).

Definition getStore (bucket : string) (db : database) : result objectStore :=
  match db !! bucket with
  | Some s => Ok s
  | None => Throw (UserError ("Bucket '" ++ bucket ++ "' does not exist"))
  end.

Definition insert (bucket : string) (data : doc) (db : database)
    : result key * database :=
  match db !! bucket with
  | Some s =>
      match store_record true data s with
      | Ok (k, s') => (Ok k, <[bucket := s']> db)
      | Throw e => (Throw e, db)
      end
  | None =>
      (** [init] reopens the database at its version: nothing is created. *)
      (Throw NotFoundError, db)
  end.

Definition getAll (bucket : string) (db : database) : result (list doc) :=
  try store <- getStore bucket db in
  Ok (all_records store).

Definition get (bucket : string) (id : value) (db : database) : result value :=
  try store <- getStore bucket db in
  match to_key id with
  | Some k => Ok (of_option (JObj <$> records store !! k))
  | None => Throw DataError
  end.

Definition update (bucket : string) (data : doc) (db : database)
    : result key * database :=
  match getStore bucket db with
  | Ok store =>
      match store_record false data store with
      | Ok (k, s') => (Ok k, <[bucket := s']> db)
      | Throw e => (Throw e, db)
      end
  | Throw e => (Throw e, db)
  end.

Definition delete (bucket : string) (id : value) (db : database)
    : result bool * database :=
  match getStore bucket db with
  | Ok store =>
      match to_key id with
      | Some k => (Ok true, <[bucket := delete_record k store]> db)
      | None => (Throw DataError, db)
      end
  | Throw e => (Throw e, db)
  end.

(** One step of the [reduce] of [filter]: [o ? o[k] : undefined]. *)
Definition member_step (o : value) (k : string) : value :=
  match o with
  | Undefined => Undefined
  | Val j => if ToBoolean o then get_property j k else Undefined
  end.

Definition resolve (item : value) (path : string) : value :=
  foldl member_step item (split_dot path).

Definition filter (bucket : string) (filterObj : gmap string value)
    (db : database) : result (list doc) :=
  try all <- getAll bucket db in
  Ok (List.filter
        (fun item : doc =>
           forallb (fun kv : string * value =>
                      loose_eq (resolve (Val (JObj item)) (fst kv)) (snd kv))
                   (map_to_list filterObj))
        all).

(** What a callback does with the store handles: it queues requests and it
    may throw. *)
Inductive action : Type :=
  | Add (bucket : string) (data : doc)
  | Put (bucket : string) (data : doc)
  | Delete (bucket : string) (id : value)
  | Raise (e : error).

(** Running [callback(stores)]: the requests queued, and the error that ended
    it.  A handle that [stores] lacks is [undefined], and a record whose id
    is no key is refused when the request is made. *)
Fixpoint run_callback (buckets : list string) (callback : list action)
    : list request * option error :=
  match callback with
  | [] => ([], None)
  | a :: rest =>
      let queue (b : string) (r : result request) :=
        if bool_decide (b ∈ buckets) then
          match r with
          | Ok req =>
              let '(reqs, e) := run_callback buckets rest in (req :: reqs, e)
          | Throw e => ([], Some e)
          end
        else ([], Some TypeError) in
      match a with
      | Add b data => queue b (try _k <- extract_key data in Ok (RAdd b data))
      | Put b data => queue b (try _k <- extract_key data in Ok (RPut b data))
      | Delete b id =>
          queue b (match to_key id with
                   | Some k => Ok (RDelete b k)
                   | None => Throw DataError
                   end)
      | Raise e => ([], Some e)
      end
  end.

Definition on_store (bucket : string) (db : database)
    (f : objectStore -> result objectStore) : result database :=
  match db !! bucket with
  | Some s => try s' <- f s in Ok (<[bucket := s']> db)
  | None => Throw NotFoundError
  end.

Definition perform (req : request) (db : database) : result database :=
  match req with
  | RAdd b data =>
      on_store b db (fun s => try r <- store_record true data s in Ok (snd r))
  | RPut b data =>
      on_store b db (fun s => try r <- store_record false data s in Ok (snd r))
  | RDelete b k => on_store b db (fun s => Ok (delete_record k s))
  end.

Fixpoint perform_all (reqs : list request) (db : database) : result database :=
  match reqs with
  | [] => Ok db
  | req :: rest => try db' <- perform req db in perform_all rest db'
  end.

(** [transaction(buckets, callback)].  The callback's error rejects the
    promise; the transaction itself is aborted only by a request that fails,
    and commits the queued requests otherwise. *)
Definition transaction (buckets : list string) (callback : list action)
    (db : database) : result bool * database :=
  match buckets with
  | [] => (Throw InvalidAccessError, db)
  | _ =>
      if forallb (fun b => bool_decide (is_Some (db !! b))) buckets then
        let '(reqs, thrown) := run_callback buckets callback in
        match perform_all reqs db, thrown with
        | Ok db', None => (Ok true, db')
        | Ok db', Some e => (Throw e, db')
        | Throw e, None => (Throw e, db)
        | Throw _, Some e => (Throw e, db)
        end
      else (Throw NotFoundError, db)
  end.

End IDb.

(** ** The statements of the specification, in its own words *)

Module Spec.
Import LSDBQuery.

(** A predicate matches an item: its evaluation yields true. *)
Definition matches (item : doc) (f : filter) : bool :=
  match test (Val (JObj item)) f with
  | Ok b => b
  | Throw _ => false
  end.

(** All AND predicates match, and either there is no OR-group or some
    OR-group has a predicate that matches. *)
Definition selects (q : t) (item : doc) : bool :=
  forallb (matches item) (filters q) &&
  match orGroups q with
  | [] => true
  | groups => existsb (fun group => existsb (matches item) group) groups
  end.

(** The operators [_compare] knows by name. *)
Definition known_ops : list string := ["eq"; "neq"; "lt"; "lte"; "gt"; "gte"].

Definition ordering_ops : list string := ["lt"; "lte"; "gt"; "gte"].

(** The name is that of no member of the built-in prototypes, so that
    [k in o] comes down to the own properties of [o]. *)
Definition own_name (k : string) : Prop := k ∉ prototype_names.

#[global] Instance own_name_dec k : Decision (own_name k).
Proof. unfold own_name. apply _. Defined.

(** Resolution finds nothing below node [o] under key [k]: the node is
    undefined, null or another falsy primitive, or it is a mapping or an
    array that lacks the key, as an own property and as an inherited
    one. *)
Definition lacks (o : value) (k : string) : Prop :=
  ToBoolean o = false \/
  exists j, o = Val j /\ has_property j k = Ok false /\ own_name k.

(** Every field/value pair of the filter object equals, under [eq], what
    [resolve] finds in the item under the field. *)
Definition pairs_match (resolve : doc -> string -> value)
    (eq : value -> value -> bool) (filterObj : gmap string value) (item : doc)
    : Prop :=
  map_Forall (fun k v => eq (resolve item k) v = true) filterObj.

#[global] Instance pairs_match_dec resolve eq filterObj item :
  Decision (pairs_match resolve eq filterObj item).
Proof. unfold pairs_match. apply _. Defined.

(** Every document stored in the namespace of [prefix] carries an id. *)
Definition documents_have_id (prefix : string) (w : world) : Prop :=
  forall key data (d : doc),
    localStorage w !! key = Some data ->
    String.prefix prefix key = true ->
    d ∈ data -> is_Some (d !! "id").

(** The selected keys can be compared with each other: all of them are
    numbers, or all of them are texts. *)
Definition comparable_keys {A} (selector : A -> value) (data : list A) : Prop :=
  (forall a, a ∈ data -> exists z, selector a = Val (JNum z)) \/
  (forall a, a ∈ data -> exists s, selector a = Val (JStr s)).

(** The order of comparable keys: that of the integers, and the
    lexicographic one of texts. *)
Definition key_le (x y : value) : Prop :=
  match x, y with
  | Val (JNum a), Val (JNum b) => (a <= b)%Z
  | Val (JStr a), Val (JStr b) => String.leb a b = true
  | _, _ => False
  end.

Definition sorted_ascending {A} (selector : A -> value) (l : list A) : Prop :=
  StronglySorted (fun a b => key_le (selector a) (selector b)) l.

Definition sorted_descending {A} (selector : A -> value) (l : list A) : Prop :=
  StronglySorted (fun a b => key_le (selector b) (selector a)) l.

(** Stability: the elements whose key ties with that of any given element
    are, in [sorted], in the order they have in [data]. *)
Definition ties_keep_order {A} (selector : A -> value) (data sorted : list A)
    : Prop :=
  forall a0, a0 ∈ data ->
    List.filter (fun a => strict_eq (selector a0) (selector a)) sorted =
    List.filter (fun a => strict_eq (selector a0) (selector a)) data.

(** What the snapshot holds for a bucket is what [localStorage] holds. *)
Definition snapshot_of (dump : gmap string (list doc)) (w : world) : Prop :=
  forall b items,
    dump !! b = Some items ->
    localStorage w !! LSDB._key LSDBUtil.prefix b = Some items.

(** Dot-path resolution in a document, as [IDb.filter] does it. *)
Definition dot_path (item : doc) (path : string) : value :=
  IDb.resolve (Val (JObj item)) path.

(** The top-level property of a document: [item[k]]. *)
Definition own_field (item : doc) (k : string) : value :=
  of_option (item !! k).

End Spec.

(** ** The documents of the examples *)

Module Examples.

Definition employee (name city group : string) (age : Z) : doc :=
  {[ "name" := JStr name;
     "address" := JObj {[ "city" := JStr city ]};
     "group" := JStr group;
     "age" := JNum age ]}.

Definition alice : doc := employee "Alice" "London" "IT" 28.
Definition bob : doc := employee "Bob" "Paris" "HR" 35.
Definition charlie : doc := employee "Charlie" "London" "HR" 40.
Definition david : doc := employee "David" "London" "IT" 22.

(** [lsdb.bucket(b).insert(item)], as [LSDBUtil.createData] calls it. *)
Definition create (uuid : nat -> string) (b : string) (item : doc) (w : world)
    : world :=
  let '(acc, w) := LSDBUtil.lsdbInstance_bucket uuid b w in
  snd (LSDB.insert acc item w).

Definition employees (uuid : nat -> string) : world :=
  create uuid "employee" david
    (create uuid "employee" charlie
       (create uuid "employee" bob
          (create uuid "employee" alice (World ∅ 0)))).

(** AND [address.city = London, group = IT], OR-group [group = HR, age >= 35]. *)
Definition london_it_or_senior : LSDBQuery.t :=
  LSDBQuery.orGroup
    [LSDBQuery.Filter "group" "eq" (Val (JStr "HR"));
     LSDBQuery.Filter "age" "gte" (Val (JNum 35))]
    (LSDBQuery.where_ "group" "eq" (Val (JStr "IT"))
       (LSDBQuery.where_ "address.city" "eq" (Val (JStr "London"))
          (LSDBQuery.new "employee"))).

(** A sequence of identifiers that never repeats. *)
Definition counting_uuid (n : nat) : string := "uuid-" ++ pretty n.

End Examples.

(** ** Sorting by a key *)

Module ByKey.
Section ByKey.
Context {A K : Type} (key : A -> K) (lt : K -> K -> bool).

(** The comparator of [orderBy], read on keys ordered by [lt]. *)
Definition by_key (a b : A) : Z :=
  if lt (key b) (key a) then 1 else if lt (key a) (key b) then (-1) else 0.

(** [a] may stand before [b]. *)
Definition le (a b : A) : Prop := lt (key b) (key a) = false.

(** The key of [a] is neither below nor above [k]. *)
Definition tie (k : K) (a : A) : bool :=
  negb (lt k (key a)) && negb (lt (key a) k).
End ByKey.
End ByKey.

(** ** The lifetime of a store: a sequence of calls *)

Module Lifetime.

Inductive call : Type :=
  | Insert (b : string) (item : doc)
  | Update (b : string) (id : value) (newData : doc)
  | Delete (b : string) (id : value)
  | All (b : string)
  | CreateBucket (b : string)
  | DeleteBucket (b : string).

Section Run.
Variable uuid : nat -> string.
Variable prefix : string.

(** One call; an insert yields the document it returns. *)
Definition step (c : call) (w : world) : option doc * world :=
  match c with
  | Insert b item =>
      let '(acc, w) := LSDB.bucket uuid prefix b w in
      let '(newItem, w) := LSDB.insert acc item w in
      (Some newItem, w)
  | Update b id newData =>
      let '(acc, w) := LSDB.bucket uuid prefix b w in
      (None, snd (LSDB.update acc id newData w))
  | Delete b id =>
      let '(acc, w) := LSDB.bucket uuid prefix b w in
      (None, snd (LSDB.delete acc id w))
  | All b => (None, snd (LSDB.bucket uuid prefix b w))
  | CreateBucket b => (None, LSDB.createBucket prefix b w)
  | DeleteBucket b => (None, LSDB.deleteBucket prefix b w)
  end.

(** The state a sequence of calls leaves. *)
Definition run (calls : list call) (w : world) : world :=
  foldl (fun w c => snd (step c w)) w calls.

(** The id the store assigned: that of the document an insert returns,
    when the item inserted carried none. *)
Definition assigned (c : call) (returned : option doc) : option value :=
  match c, returned with
  | Insert _ item, Some newItem =>
      match item !! "id" with
      | None => Some (LSDB.id_of newItem)
      | Some _ => None
      end
  | _, _ => None
  end.

(** The ids assigned over a sequence of calls, in order. *)
Fixpoint assigned_ids (calls : list call) (w : world) : list value :=
  match calls with
  | [] => []
  | c :: rest =>
      let '(returned, w') := step c w in
      match assigned c returned with
      | Some id => id :: assigned_ids rest w'
      | None => assigned_ids rest w'
      end
  end.
End Run.
End Lifetime.

(** ** The rest of LSQuery, IDb and IDbUtil *)

Section ArrayFind.
Context {A : Type}.

(** [arr.find(p)]: the first element that passes, [None] for [undefined]. *)
Fixpoint array_find (p : A -> result bool) (arr : list A) : result (option A) :=
  match arr with
  | [] => Ok None
  | x :: rest => try b <- p x in if b then Ok (Some x) else array_find p rest
  end.
End ArrayFind.

(** LSQuery over an array of JSON values. *)
Module LSQueryData.

(** [x || null], for [x] an element or [undefined]. *)
Definition or_null (x : option json) : json :=
  match x with
  | Some j => if ToBoolean (Val j) then j else JNull
  | None => JNull
  end.

(** [firstOrDefault(predicate = null)]. *)
Definition firstOrDefault (predicate : option (json -> result bool))
    (data : list json) : result json :=
  match predicate with
  | None => Ok (or_null (head data))
  | Some p => try found <- array_find p data in Ok (or_null found)
  end.

End LSQueryData.

Module IDbMore.
Import IDb.

(** The loop of [dump]: [result[bucket] = await this.getAll(bucket)]. *)
Fixpoint dump_loop (buckets : list string) (result : gmap string (list doc))
    (db : database) : JS.result (gmap string (list doc)) :=
  match buckets with
  | [] => Ok result
  | bucket :: rest =>
      try all <- getAll bucket db in dump_loop rest (assign bucket all result) db
  end.

(** [dump(buckets)]. *)
Definition dump (buckets : list string) (db : database) : JS.result json_text :=
  try result <- dump_loop buckets ∅ db in Ok (Text result).

(** [for (let item of obj[bucket]) store.put(item)]: a record whose id is no
    key makes [put] throw, and ends the loop; the requests made before it
    stay on the transaction and are carried out. *)
Fixpoint put_all (items : list doc) (s : objectStore) : option error * objectStore :=
  match items with
  | [] => (None, s)
  | item :: rest =>
      match store_record false item s with
      | Ok (_, s') => put_all rest s'
      | Throw e => (Some e, s)
      end
  end.

(** The loop of [import] over the buckets of [obj].  A bucket the database
    lacks is not created by [init], which reopens the database as it is, and
    [getStore] throws. *)
Fixpoint import_loop (entries : list (string * list doc)) (db : database)
    : JS.result unit * database :=
  match entries with
  | [] => (Ok tt, db)
  | (bucket, items) :: rest =>
      match getStore bucket db with
      | Throw e => (Throw e, db)
      | Ok store =>
          match put_all items store with
          | (None, s') => import_loop rest (<[bucket := s']> db)
          | (Some e, s') => (Throw e, <[bucket := s']> db)
          end
      end
  end.

(** [import(jsonData)], for [jsonData] the object or the text of it. *)
Definition import (obj : gmap string (list doc)) (db : database)
    : JS.result unit * database :=
  import_loop (map_to_list obj) db.

End IDbMore.

(** IDbUtil: each method hands its result to a callback, and logs an error
    instead of calling it.  A method is modelled by what the callback
    receives, [None] when it is not called, and the database it leaves. *)
Module IDbUtil.

Definition caught {A} (r : result A) : option A :=
  match r with
  | Ok a => Some a
  | Throw _ => None
  end.

(** [getMany(bucket, filter = {}, callback)]. *)
Definition getMany (bucket : string) (filter : gmap string value)
    (db : IDb.database) : option (list doc) :=
  caught
    (try results <- IDb.getAll bucket db in
     Ok (if (0 <? length (map_to_list filter))%nat
         then List.filter
                (fun item : doc =>
                   forallb (fun kv : string * value =>
                              loose_eq (IDb.resolve (Val (JObj item)) (fst kv))
                                       (snd kv))
                           (map_to_list filter))
                results
         else results)).

(** [createData(bucket, data, callback)]. *)
Definition createData (bucket : string) (data : doc) (db : IDb.database)
    : option value * IDb.database :=
  match IDb.insert bucket data db with
  | (Ok id, db') => (caught (IDb.get bucket (Val (IDb.of_key id)) db'), db')
  | (Throw _, db') => (None, db')
  end.

(** [updateData(bucket, data, callback)]; [data.id] is read off [data] as
    the caller passed it. *)
Definition updateData (bucket : string) (data : doc) (db : IDb.database)
    : option value * IDb.database :=
  match IDb.update bucket data db with
  | (Ok _, db') => (caught (IDb.get bucket (of_option (data !! "id")) db'), db')
  | (Throw _, db') => (None, db')
  end.

(** [deleteData(bucket, id, callback)]. *)
Definition deleteData (bucket : string) (id : value) (db : IDb.database)
    : option bool * IDb.database :=
  match IDb.delete bucket id db with
  | (Ok _, db') => (Some true, db')
  | (Throw _, db') => (None, db')
  end.

Definition dumpBuckets := IDbMore.dump.

Definition importBuckets := IDbMore.import.

End IDbUtil.

Module SpecMore.

(** Every record of the store is stored under the key its [id] holds: what
    a store with key path ["id"] keeps. *)
Definition keyed_by_id (s : IDb.objectStore) : Prop :=
  forall k (d : doc), IDb.records s !! k = Some d -> d !! "id" = Some (IDb.of_key k).

(** A JSON value that is not falsy. *)
Definition truthy (j : json) : Prop := ToBoolean (Val j) = true.

End SpecMore.

(** * Properties *)

(** ** The predicate evaluator *)

(** Membership in a list given by its elements. *)
Ltac in_list := rewrite ?elem_of_cons, ?elem_of_nil; tauto.
Ltac not_in_list :=
  rewrite ?not_elem_of_cons, ?elem_of_nil; repeat split; (discriminate || tauto).

Section Compare.
Import LSDBQuery Spec.

Lemma IsLessThan_undefined_l e : IsLessThan Undefined e = None.
Proof.
  unfold IsLessThan. cbn [ToPrimitive].
  destruct (ToPrimitive e) as [|[]]; reflexivity.
Qed.

Lemma IsLessThan_undefined_r e : IsLessThan e Undefined = None.
Proof.
  unfold IsLessThan. cbn [ToPrimitive].
  destruct (ToPrimitive e) as [|[| [] | | | |]]; try reflexivity;
    unfold ToNumber; cbn [ToPrimitive];
    match goal with |- context [StringToNumber ?s] =>
      destruct (StringToNumber s) end; reflexivity.
Qed.

Lemma compare_undefined_ordering op e :
  op ∈ ordering_ops -> _compare Undefined op e = false.
Proof.
  unfold ordering_ops. intros H.
  assert (op = "lt" \/ op = "lte" \/ op = "gt" \/ op = "gte") as Hop
    by (revert H; in_list).
  destruct Hop as [-> | [-> | [-> | ->]]]; cbn;
    unfold js_lt, js_lte, js_gt, js_gte;
    rewrite ?IsLessThan_undefined_l, ?IsLessThan_undefined_r; reflexivity.
Qed.

Lemma compare_unknown op v e :
  op ∉ known_ops -> _compare v op e = loose_eq v e.
Proof.
  intros H. unfold _compare.
  repeat match goal with
         | |- context [String.eqb op ?s] =>
             destruct (String.eqb_spec op s) as [->|_];
             [exfalso; apply H; unfold known_ops; in_list|]
         end.
  reflexivity.
Qed.

(** C3.  The [eq] operator of [_compare] is loose equality, under which the
    text "3" equals the number 3 and differs from the number 4; [neq] is the
    negation of [eq]; an operator that is none of the six known ones behaves
    as [eq] does. *)
Theorem compare_eq_is_loose :
  (forall v e, _compare v "eq" e = loose_eq v e) /\
  _compare (Val (JStr "3")) "eq" (Val (JNum 3)) = true /\
  _compare (Val (JStr "3")) "eq" (Val (JNum 4)) = false /\
  (forall v e, _compare v "neq" e = negb (_compare v "eq" e)) /\
  (forall op v e, op ∉ known_ops -> _compare v op e = _compare v "eq" e).
Proof.
  split; [reflexivity|].
  split; [reflexivity|].
  split; [reflexivity|].
  split; [reflexivity|].
  intros op v e H. by rewrite compare_unknown.
Qed.

Lemma compare_eq_is_loose_witness :
  ("like" ∉ known_ops) /\
  _compare (Val (JStr "3")) "like" (Val (JNum 3)) =
  _compare (Val (JStr "3")) "eq" (Val (JNum 3)).
Proof.
  assert ("like" ∉ known_ops) as H by (unfold known_ops; not_in_list).
  split; [exact H|].
  exact (proj2 (proj2 (proj2 (proj2 compare_eq_is_loose))) "like" _ _ H).
Defined.

End Compare.

(** ** Dot-path resolution *)

Section Resolution.
Import LSDBQuery Spec.

Lemma nested_step_lacks o k : lacks o k -> nested_step o k = Ok Undefined.
Proof.
  intros [Hfalsy | (j & -> & Hno & _)]; unfold nested_step.
  - destruct o as [|j]; [reflexivity|]. by rewrite Hfalsy.
  - rewrite Hno. by destruct (ToBoolean (Val j)).
Qed.

Lemma reduce_path_undefined ks : reduce_path ks Undefined = Ok Undefined.
Proof. induction ks as [|k ks IH]; [reflexivity | exact IH]. Qed.

Lemma reduce_path_app pre post o o' :
  reduce_path pre o = Ok o' ->
  reduce_path (pre ++ post) o = reduce_path post o'.
Proof.
  revert o. induction pre as [|k pre IH]; intros o H; cbn in *.
  - by injection H as ->.
  - destruct (nested_step o k) as [o1|e]; cbn in *; [by apply IH | discriminate].
Qed.

Lemma array_index_not_length : array_index "length" = None.
Proof. reflexivity. Qed.

Lemma nested_step_object (m : gmap string json) k v :
  m !! k = Some v -> nested_step (Val (JObj m)) k = Ok (Val v).
Proof.
  intros H. cbn. rewrite H. rewrite bool_decide_eq_true_2; [reflexivity | eauto].
Qed.

Lemma nested_step_array (l : list json) k i x :
  array_index k = Some i -> l !! i = Some x ->
  nested_step (Val (JArr l)) k = Ok (Val x).
Proof.
  intros Hk Hx. cbn.
  destruct (String.eqb_spec k "length") as [-> | _]; [discriminate|].
  rewrite Hk, Hx. cbn.
  rewrite bool_decide_eq_true_2; [reflexivity|].
  by apply lookup_lt_Some in Hx.
Qed.

Lemma nested_step_length (l : list json) :
  nested_step (Val (JArr l)) "length" = Ok (Val (JNum (Z.of_nat (length l)))).
Proof. reflexivity. Qed.




End Resolution.

(** ** Callbacks that throw, against their total readings *)

Section ArrayLemmas.
Context {A : Type}.
Implicit Types (p : A -> result bool) (q : A -> bool) (l : list A).

Lemma array_every_sound p q l b :
  (forall x b, p x = Ok b -> b = q x) ->
  array_every p l = Ok b -> b = forallb q l.
Proof.
  intros Hpq. induction l as [|x l IH]; cbn.
  - congruence.
  - destruct (p x) as [[]|e] eqn:Hx; cbn; try discriminate;
      rewrite <- (Hpq _ _ Hx); cbn; [exact IH | congruence].
Qed.

Lemma array_some_sound p q l b :
  (forall x b, p x = Ok b -> b = q x) ->
  array_some p l = Ok b -> b = existsb q l.
Proof.
  intros Hpq. induction l as [|x l IH]; cbn.
  - congruence.
  - destruct (p x) as [[]|e] eqn:Hx; cbn; try discriminate;
      rewrite <- (Hpq _ _ Hx); cbn; [congruence | exact IH].
Qed.

Lemma array_filter_sound p q l l' :
  (forall x b, p x = Ok b -> b = q x) ->
  array_filter p l = Ok l' -> l' = List.filter q l.
Proof.
  intros Hpq. revert l'. induction l as [|x l IH]; intros l'; cbn.
  - congruence.
  - destruct (p x) as [b|e] eqn:Hx; cbn; [|discriminate].
    destruct (array_filter p l) as [r|e]; cbn; [|discriminate].
    rewrite <- (Hpq _ _ Hx), <- (IH r eq_refl). destruct b; congruence.
Qed.

Lemma array_every_total p l :
  (forall x, x ∈ l -> is_ok (p x) = true) -> is_ok (array_every p l) = true.
Proof.
  induction l as [|x l IH]; intros H; cbn; [reflexivity|].
  pose proof (H x ltac:(left)) as Hx.
  destruct (p x) as [[]|e]; cbn; try discriminate; [|reflexivity].
  apply IH. intros y Hy. apply H. by right.
Qed.

Lemma array_some_total p l :
  (forall x, x ∈ l -> is_ok (p x) = true) -> is_ok (array_some p l) = true.
Proof.
  induction l as [|x l IH]; intros H; cbn; [reflexivity|].
  pose proof (H x ltac:(left)) as Hx.
  destruct (p x) as [[]|e]; cbn; try discriminate; [reflexivity|].
  apply IH. intros y Hy. apply H. by right.
Qed.

Lemma array_filter_total p l :
  (forall x, x ∈ l -> is_ok (p x) = true) -> is_ok (array_filter p l) = true.
Proof.
  induction l as [|x l IH]; intros H; cbn; [reflexivity|].
  pose proof (H x ltac:(left)) as Hx.
  destruct (p x) as [b|e]; cbn; [|discriminate].
  assert (is_ok (array_filter p l) = true) as Hl
    by (apply IH; intros y Hy; apply H; by right).
  by destruct (array_filter p l).
Qed.
End ArrayLemmas.

(** ** LSDBQuery.execute *)

Section Execute.
Import LSDBQuery Spec.

Lemma load_ensure prefix b w :
  LSDB._load prefix b (LSDB._ensure prefix b w) = LSDB._load prefix b w.
Proof.
  unfold LSDB._ensure, LSDB._load.
  destruct (localStorage w !! LSDB._key prefix b) eqn:E; cbn.
  - by rewrite E.
  - by rewrite lookup_insert_eq.
Qed.

Lemma execute_unfold uuid q w :
  fst (execute uuid q w) =
  array_filter (keep q) (LSDB._load LSDBUtil.prefix (bucket q) w).
Proof.
  unfold execute, LSDBUtil.lsdbInstance_bucket, LSDB.bucket. cbn.
  rewrite load_ensure. unfold LSQuery.where_, LSQuery.toList.
  by destruct (array_filter _ _).
Qed.

Lemma test_matches item f b :
  test (Val (JObj item)) f = Ok b -> b = matches item f.
Proof. intros H. unfold matches. by rewrite H. Qed.

Lemma matchesOr_sound q item b :
  _matchesOr q (Val (JObj item)) = Ok b ->
  b = match orGroups q with
      | [] => true
      | groups => existsb (fun group => existsb (matches item) group) groups
      end.
Proof.
  unfold _matchesOr. destruct (orGroups q) as [|g gs]; [congruence|].
  apply array_some_sound. intros group b'.
  apply array_some_sound, test_matches.
Qed.

Lemma keep_sound q item b : keep q item = Ok b -> b = selects q item.
Proof.
  unfold keep, selects. intros H.
  destruct (_matchesAnd q (Val (JObj item))) as [a|e] eqn:Ha; [|discriminate].
  apply (array_every_sound _ (matches item)) in Ha; [|apply test_matches].
  rewrite <- Ha. cbn in H. destruct a; cbn.
  - by apply matchesOr_sound.
  - congruence.
Qed.

Lemma keep_total q item :
  (forall f, f ∈ (filters q ++ concat (orGroups q))%list ->
             is_ok (test (Val (JObj item)) f) = true) ->
  is_ok (keep q item) = true.
Proof.
  intros H. unfold keep.
  assert (is_ok (_matchesAnd q (Val (JObj item))) = true) as Ha.
  { apply array_every_total. intros f Hf. apply H, elem_of_app. by left. }
  destruct (_matchesAnd q (Val (JObj item))) as [[]|e]; cbn; try done.
  unfold _matchesOr. destruct (orGroups q) as [|g gs] eqn:Hg; [done|].
  apply array_some_total. intros group Hgroup.
  apply array_some_total. intros f Hf.
  apply H, elem_of_app. right.
  apply list_elem_of_In, in_concat. exists group.
  by split; apply list_elem_of_In.
Qed.

Lemma employees_stored uuid :
  LSDB._load LSDBUtil.prefix "employee" (Examples.employees uuid) =
    [ Examples.alice ∪ {[ "id" := JStr (uuid 0%nat) ]};
      Examples.bob ∪ {[ "id" := JStr (uuid 1%nat) ]};
      Examples.charlie ∪ {[ "id" := JStr (uuid 2%nat) ]};
      Examples.david ∪ {[ "id" := JStr (uuid 3%nat) ]} ].
Proof. vm_compute. reflexivity. Qed.

Lemma employees_storage uuid :
  localStorage (Examples.employees uuid) =
    {[ LSDB._key LSDBUtil.prefix "employee" :=
         [ Examples.alice ∪ {[ "id" := JStr (uuid 0%nat) ]};
           Examples.bob ∪ {[ "id" := JStr (uuid 1%nat) ]};
           Examples.charlie ∪ {[ "id" := JStr (uuid 2%nat) ]};
           Examples.david ∪ {[ "id" := JStr (uuid 3%nat) ]} ] ]}.
Proof. vm_compute. reflexivity. Qed.

(** C1.  Whenever [execute] returns, it returns exactly the stored documents
    that the query selects: all AND predicates match and, if there is an
    OR-group, some OR-group has a matching predicate.  It does return when
    no predicate's evaluation throws on a stored document.  On the four
    employees, AND [address.city = London, group = IT] with the OR-group
    [group = HR, age >= 35] returns no document. *)
Theorem execute_and_or :
  (forall uuid q w found,
      fst (execute uuid q w) = Ok found ->
      found = List.filter (selects q) (LSDB._load LSDBUtil.prefix (bucket q) w)) /\
  (forall uuid q w,
      (forall item f,
          item ∈ LSDB._load LSDBUtil.prefix (bucket q) w ->
          f ∈ (filters q ++ concat (orGroups q))%list ->
          is_ok (test (Val (JObj item)) f) = true) ->
      fst (execute uuid q w) =
      Ok (List.filter (selects q) (LSDB._load LSDBUtil.prefix (bucket q) w))) /\
  (forall uuid,
      LSDB._load LSDBUtil.prefix "employee" (Examples.employees uuid) =
        [ Examples.alice ∪ {[ "id" := JStr (uuid 0%nat) ]};
          Examples.bob ∪ {[ "id" := JStr (uuid 1%nat) ]};
          Examples.charlie ∪ {[ "id" := JStr (uuid 2%nat) ]};
          Examples.david ∪ {[ "id" := JStr (uuid 3%nat) ]} ] /\
      fst (execute uuid Examples.london_it_or_senior (Examples.employees uuid))
      = Ok []).
Proof.
  assert (forall uuid q w found,
             fst (execute uuid q w) = Ok found ->
             found = List.filter (selects q)
                       (LSDB._load LSDBUtil.prefix (bucket q) w)) as Hsound.
  { intros uuid q w found. rewrite execute_unfold.
    apply array_filter_sound, keep_sound. }
  split; [exact Hsound|]. split.
  - intros uuid q w H.
    destruct (fst (execute uuid q w)) as [found|e] eqn:E.
    + by rewrite (Hsound _ _ _ _ E).
    + rewrite execute_unfold in E.
      assert (is_ok (array_filter (keep q)
                       (LSDB._load LSDBUtil.prefix (bucket q) w)) = true) as Hok.
      { apply array_filter_total. intros item Hitem.
        apply keep_total. intros f Hf. by apply H. }
      rewrite E in Hok. discriminate.
  - intros uuid. split; [apply employees_stored | vm_compute; reflexivity].
Qed.

Lemma execute_and_or_witness :
  let uuid := Examples.counting_uuid in
  let q := Examples.london_it_or_senior in
  let w := Examples.employees uuid in
  [] = List.filter (selects q) (LSDB._load LSDBUtil.prefix (bucket q) w) /\
  fst (execute uuid q w) =
  Ok (List.filter (selects q) (LSDB._load LSDBUtil.prefix (bucket q) w)).
Proof.
  intros uuid q w.
  destruct execute_and_or as (Hsound & Htotal & Hex).
  split.
  - apply (Hsound uuid q w []). vm_compute. reflexivity.
  - apply (Htotal uuid q w). intros item f Hitem Hf.
    change (bucket q) with "employee" in Hitem.
    unfold w in Hitem. rewrite (employees_stored uuid) in Hitem.
    change (filters q ++ concat (orGroups q))%list
      with [Filter "address.city" "eq" (Val (JStr "London"));
            Filter "group" "eq" (Val (JStr "IT"));
            Filter "group" "eq" (Val (JStr "HR"));
            Filter "age" "gte" (Val (JNum 35))] in Hf.
    rewrite !elem_of_cons, elem_of_nil in Hitem.
    rewrite !elem_of_cons, elem_of_nil in Hf.
    destruct Hitem as [-> | [-> | [-> | [-> | []]]]];
      destruct Hf as [-> | [-> | [-> | [-> | []]]]];
      vm_compute; reflexivity.
Defined.

End Execute.

(** ** Buckets of LSDB *)

Section Buckets.
Import Spec.

Lemma prefix_append p b : String.prefix p (p ++ b) = true.
Proof.
  induction p as [|c p IH]; [by destruct b|].
  change (String c p ++ b) with (String c (p ++ b)). cbn.
  destruct (ascii_dec c c); [exact IH | congruence].
Qed.

Lemma substring_all s : String.substring 0 (String.length s) s = s.
Proof. induction s as [|c s IH]; cbn; [reflexivity | by rewrite IH]. Qed.

Lemma substring_append p b :
  String.substring (String.length p)
    (String.length (p ++ b) - String.length p) (p ++ b) = b.
Proof.
  induction p as [|c p IH].
  - change ("" ++ b) with b. cbn. rewrite Nat.sub_0_r. apply substring_all.
  - change (String c p ++ b) with (String c (p ++ b)). exact IH.
Qed.

Lemma remove_first_prefix p b : LSDB.remove_first p (p ++ b) = b.
Proof.
  assert (forall s, LSDB.remove_first p s =
            if String.prefix p s
            then String.substring (String.length p)
                   (String.length s - String.length p) s
            else match s with
                 | EmptyString => EmptyString
                 | String c r => String c (LSDB.remove_first p r)
                 end) as Hunfold by (by intros []).
  rewrite Hunfold, prefix_append. apply substring_append.
Qed.

Lemma listBuckets_lookup prefix b w :
  is_Some (localStorage w !! LSDB._key prefix b) ->
  b ∈ LSDB.listBuckets prefix w.
Proof.
  intros [data Hdata]. unfold LSDB.listBuckets.
  apply list_elem_of_In, in_map_iff.
  exists (LSDB._key prefix b, data). unfold LSDB._key in *. cbn. split.
  - apply remove_first_prefix.
  - apply filter_In. cbn. split; [|apply prefix_append].
    by apply list_elem_of_In, elem_of_map_to_list.
Qed.

Lemma listBuckets_key prefix b w :
  b ∈ LSDB.listBuckets prefix w ->
  exists key, String.prefix prefix key = true /\
              b = LSDB.remove_first prefix key /\
              is_Some (localStorage w !! key).
Proof.
  unfold LSDB.listBuckets. intros H.
  apply list_elem_of_In, in_map_iff in H as ([key data] & Hb & Hin).
  apply filter_In in Hin as [Hin Hpre]. cbn in *.
  apply list_elem_of_In, elem_of_map_to_list in Hin. eauto.
Qed.

Lemma lookup_ensure prefix b w :
  localStorage (LSDB._ensure prefix b w) !! LSDB._key prefix b =
  Some (LSDB._load prefix b w).
Proof.
  unfold LSDB._ensure, LSDB._load.
  destruct (localStorage w !! LSDB._key prefix b) eqn:E; cbn.
  - exact E.
  - apply lookup_insert_eq.
Qed.

Lemma load_ensure_any prefix b b' w :
  LSDB._load prefix b' (LSDB._ensure prefix b w) = LSDB._load prefix b' w.
Proof.
  unfold LSDB._ensure.
  destruct (localStorage w !! LSDB._key prefix b) eqn:E; [reflexivity|].
  unfold LSDB._load. cbn.
  destruct (decide (LSDB._key prefix b = LSDB._key prefix b')) as [Heq|Hne].
  - by rewrite <- Heq, lookup_insert_eq, E.
  - by rewrite lookup_insert_ne.
Qed.

(** C10.  Obtaining the accessor of a bucket leaves the bucket in existence:
    its key is in [localStorage], holding the empty array if it was not
    there before, and [listBuckets] lists its name.  [all()] and
    [filterBy()] read through that accessor, so a query of a bucket that did
    not exist returns no document and leaves the bucket created. *)
Theorem bucket_accessor_creates (uuid : nat -> string) (prefix b : string)
    (w : world) :
  let acc := fst (LSDB.bucket uuid prefix b w) in
  let w' := snd (LSDB.bucket uuid prefix b w) in
  localStorage w' !! LSDB._key prefix b = Some (LSDB._load prefix b w) /\
  (localStorage w !! LSDB._key prefix b = None ->
   localStorage w' = <[LSDB._key prefix b := []]> (localStorage w) /\
   LSDB.all acc w' = [] /\
   forall props, LSDB.filterBy acc props w' = []) /\
  b ∈ LSDB.listBuckets prefix w'.
Proof.
  cbn. split; [apply lookup_ensure|]. split.
  - intros Hnone.
    assert (LSDB._load prefix b w = []) as Hload
      by (unfold LSDB._load; by rewrite Hnone).
    rewrite load_ensure, Hload. unfold LSDB._ensure. by rewrite Hnone.
  - apply listBuckets_lookup. rewrite lookup_ensure. eauto.
Qed.

Lemma bucket_accessor_creates_witness :
  let w := World ∅ 0 in
  let w' := snd (LSDB.bucket Examples.counting_uuid "APP_" "ghost" w) in
  localStorage w !! LSDB._key "APP_" "ghost" = None /\
  localStorage w' = <[LSDB._key "APP_" "ghost" := []]> (localStorage w) /\
  LSDB.listBuckets "APP_" w' = ["ghost"].
Proof.
  intros w w'.
  split; [reflexivity|]. split; [|reflexivity].
  apply (bucket_accessor_creates Examples.counting_uuid "APP_" "ghost" w).
  reflexivity.
Defined.

End Buckets.

(** ** update *)

Section Update.

Lemma findIndex_Some {A} (p : A -> bool) (l : list A) i :
  findIndex p l = Some i ->
  exists x, l !! i = Some x /\ p x = true /\
            forall j y, (j < i)%nat -> l !! j = Some y -> p y = false.
Proof.
  revert i. induction l as [|a l IH]; intros i; cbn; [discriminate|].
  destruct (p a) eqn:Ha.
  - intros [= <-]. exists a. repeat split; [done|]. lia.
  - destruct (findIndex p l) as [i'|]; [|discriminate].
    intros [= <-]. destruct (IH i' eq_refl) as (x & Hx & Hpx & Hfirst).
    exists x. repeat split; [done..|].
    intros [|j] y Hj; cbn; [congruence|]. apply Hfirst. lia.
Qed.

Lemma findIndex_None {A} (p : A -> bool) (l : list A) :
  findIndex p l = None <-> forall x, x ∈ l -> p x = false.
Proof.
  induction l as [|a l IH]; cbn.
  - split; [|done]. intros _ x Hx. by apply elem_of_nil in Hx.
  - destruct (p a) eqn:Ha.
    + split; [discriminate|]. intros H.
      specialize (H a ltac:(left)). congruence.
    + destruct (findIndex p l) as [i|].
      * split; [discriminate|]. intros H.
        assert (Some i = None) as Hn; [|discriminate].
        apply IH. intros x Hx. apply H. by right.
      * split; [|done]. intros _ x [->|Hx]%elem_of_cons; [done|].
        by apply IH.
Qed.

(** C4, as the code has it.  [bucket(b).update(id, newData)] of LSDB: when
    some stored document has an id strictly equal to [id], the first such
    document is replaced by its shallow merge with [newData] (the keys of
    [newData] take [newData]'s values, the other keys keep the stored ones)
    and the merge is returned; when none has, [false] is returned, nothing is
    inserted and every bucket holds the documents it held.  [update] of IDb
    is a [put]: the record is stored whole under its id, whether or not a
    record with that id exists. *)
Theorem update_merges (uuid : nat -> string) (prefix b : string)
    (id : value) (newData : doc) (w : world) :
  let acc := fst (LSDB.bucket uuid prefix b w) in
  let w1 := snd (LSDB.bucket uuid prefix b w) in
  let stored := LSDB._load prefix b w in
  (forall x, x ∈ stored -> strict_eq (LSDB.id_of x) id = true ->
     exists i old,
       stored !! i = Some old /\
       strict_eq (LSDB.id_of old) id = true /\
       (forall j y, (j < i)%nat -> stored !! j = Some y ->
                    strict_eq (LSDB.id_of y) id = false) /\
       fst (LSDB.update acc id newData w1) = Some (newData ∪ old) /\
       LSDB._load prefix b (snd (LSDB.update acc id newData w1)) =
         <[i := newData ∪ old]> stored /\
       (forall k v, newData !! k = Some v -> (newData ∪ old) !! k = Some v) /\
       (forall k, newData !! k = None -> (newData ∪ old) !! k = old !! k)) /\
  ((forall x, x ∈ stored -> strict_eq (LSDB.id_of x) id = false) ->
     LSDB.update acc id newData w1 = (None, w1) /\
     forall b', LSDB._load prefix b' w1 = LSDB._load prefix b' w) /\
  (forall bucket (data : doc) (db : IDb.database) store k,
     db !! bucket = Some store ->
     data !! "id" = Some (IDb.of_key k) ->
     fst (IDb.update bucket data db) = Ok k /\
     IDb.get bucket (Val (IDb.of_key k)) (snd (IDb.update bucket data db))
       = Ok (Val (JObj data))).
Proof.
  intros acc w1 stored. split; [|split].
  - subst acc w1 stored. cbn. rewrite load_ensure. intros x Hx Hid.
    destruct (findIndex (fun x => strict_eq (LSDB.id_of x) id)
                (LSDB._load prefix b w)) as [i|] eqn:Hfind.
    + destruct (findIndex_Some _ _ _ Hfind) as (old & Hold & Hp & Hfirst).
      exists i, old. rewrite Hold. cbn.
      repeat split; try done.
      * unfold LSDB._load at 1. cbn. by rewrite lookup_insert_eq.
      * intros k v Hk. by apply lookup_union_Some_l.
      * intros k Hk. by apply lookup_union_r.
    + apply findIndex_None with (x := x) in Hfind; [congruence | done].
  - subst acc w1 stored. cbn. rewrite load_ensure.
    intros Hnone. apply findIndex_None in Hnone. rewrite Hnone.
    split; [reflexivity|]. intros b'. apply load_ensure_any.
  - intros bucket data db store k Hstore Hid.
    assert (IDb.to_key (Val (IDb.of_key k)) = Some k) as Hkey by (by destruct k).
    assert (IDb.extract_key data = Ok (Some k)) as Hextract
      by (unfold IDb.extract_key; by rewrite Hid, Hkey).
    unfold IDb.update, IDb.getStore. rewrite Hstore.
    unfold IDb.store_record. rewrite Hextract. cbn.
    split; [reflexivity|].
    unfold IDb.get, IDb.getStore. rewrite lookup_insert_eq. cbn [bind].
    rewrite Hkey. cbn. by rewrite lookup_insert_eq.
Qed.

Lemma update_merges_witness :
  let uuid := Examples.counting_uuid in
  let w := Examples.employees uuid in
  let acc := fst (LSDB.bucket uuid LSDBUtil.prefix "employee" w) in
  let w1 := snd (LSDB.bucket uuid LSDBUtil.prefix "employee" w) in
  (exists i old,
      LSDB._load LSDBUtil.prefix "employee" w !! i = Some old /\
      fst (LSDB.update acc (Val (JStr (uuid 1%nat)))
             {[ "group" := JStr "IT" ]} w1)
      = Some ({[ "group" := JStr "IT" ]} ∪ old)) /\
  LSDB.update acc (Val (JStr "nobody")) {[ "group" := JStr "IT" ]} w1
    = (None, w1) /\
  fst (IDb.update "employee" {[ "id" := JNum 7; "name" := JStr "Eve" ]}
         {[ "employee" := IDb.ObjectStore ∅ 1 ]}) = Ok (IDb.KNum 7).
Proof.
  intros uuid w acc w1. split; [|split].
  - destruct (proj1 (update_merges uuid LSDBUtil.prefix "employee"
                       (Val (JStr (uuid 1%nat))) {[ "group" := JStr "IT" ]} w)
                (Examples.bob ∪ {[ "id" := JStr (uuid 1%nat) ]}))
      as (i & old & Hold & _ & _ & Hret & _).
    + unfold w. rewrite (employees_stored uuid).
      rewrite !elem_of_cons. tauto.
    + vm_compute. reflexivity.
    + exists i, old. split; [exact Hold | exact Hret].
  - apply (proj1 (proj2 (update_merges uuid LSDBUtil.prefix "employee"
                           (Val (JStr "nobody")) {[ "group" := JStr "IT" ]} w))).
    intros x Hx. unfold w in Hx.
    rewrite (employees_stored uuid) in Hx.
    rewrite !elem_of_cons, elem_of_nil in Hx.
    destruct Hx as [-> | [-> | [-> | [-> | []]]]]; vm_compute; reflexivity.
  - apply (proj2 (proj2 (update_merges uuid "" "" Undefined ∅ (World ∅ 0)))
             "employee" {[ "id" := JNum 7; "name" := JStr "Eve" ]}
             {[ "employee" := IDb.ObjectStore ∅ 1 ]} (IDb.ObjectStore ∅ 1)
             (IDb.KNum 7)); reflexivity.
Defined.

(** C4, as the specification states it, fails on the code: [update] of IDb
    never reports a missing id.  Given a record whose id is not stored it
    succeeds and inserts the record; given one whose id is stored it replaces
    the stored record whole, and the stored keys it lacks are lost. *)
Lemma update_counterexample :
  let db : IDb.database := {[ "employee" := IDb.ObjectStore ∅ 1 ]} in
  let eve : doc := {[ "id" := JNum 7; "name" := JStr "Eve"; "age" := JNum 30 ]} in
  let patch : doc := {[ "id" := JNum 7; "name" := JStr "Eva" ]} in
  let db1 := snd (IDb.update "employee" eve db) in
  let db2 := snd (IDb.update "employee" patch db1) in
  IDb.get "employee" (Val (JNum 7)) db = Ok Undefined /\
  fst (IDb.update "employee" eve db) = Ok (IDb.KNum 7) /\
  IDb.get "employee" (Val (JNum 7)) db1 = Ok (Val (JObj eve)) /\
  IDb.get "employee" (Val (JNum 7)) db2 = Ok (Val (JObj patch)) /\
  patch !! "age" = None.
Proof. intros db eve patch db1 db2. repeat split; vm_compute; reflexivity. Qed.

End Update.

(** ** filter and filterBy *)

Section Filter.
Import Spec.

Lemma forallb_map_to_list {V} (P : string -> V -> bool) (m : gmap string V) :
  forallb (fun kv => P (fst kv) (snd kv)) (map_to_list m) =
  bool_decide (map_Forall (fun k v => P k v = true) m).
Proof.
  apply eq_true_iff_eq.
  rewrite forallb_forall, bool_decide_eq_true, map_Forall_to_list, Forall_forall.
  split.
  - intros H [k v] Hin. apply (H (k, v)). by apply list_elem_of_In.
  - intros H [k v] Hin. apply (H (k, v)). by apply list_elem_of_In.
Qed.

(** C5, as the code has it.  [filter] of IDb keeps, in their stored order,
    exactly the records for which every field/value pair of the filter
    object is loosely equal to the value its dot-path resolves to; it is
    rejected for a bucket that does not exist.  [filterBy] of LSDB keeps
    exactly the documents for which every pair is strictly equal to the
    document's top-level property of that name. *)
Theorem filter_keeps_matching_pairs :
  (forall bucket filterObj (db : IDb.database) store,
      db !! bucket = Some store ->
      IDb.filter bucket filterObj db =
      Ok (List.filter
            (fun item => bool_decide (pairs_match dot_path loose_eq filterObj item))
            (IDb.all_records store))) /\
  (forall bucket filterObj (db : IDb.database),
      db !! bucket = None -> is_ok (IDb.filter bucket filterObj db) = false) /\
  (forall uuid prefix b props w,
      let acc := fst (LSDB.bucket uuid prefix b w) in
      let w1 := snd (LSDB.bucket uuid prefix b w) in
      LSDB.filterBy acc props w1 =
      List.filter
        (fun item => bool_decide (pairs_match own_field strict_eq props item))
        (LSDB._load prefix b w)).
Proof.
  split; [|split].
  - intros bucket filterObj db store Hstore.
    unfold IDb.filter, IDb.getAll, IDb.getStore. rewrite Hstore. cbn [bind].
    f_equal. apply filter_ext. intros item.
    apply (forallb_map_to_list
             (fun k v => loose_eq (IDb.resolve (Val (JObj item)) k) v)).
  - intros bucket filterObj db Hnone.
    unfold IDb.filter, IDb.getAll, IDb.getStore. by rewrite Hnone.
  - intros uuid prefix b props w. cbn. rewrite load_ensure.
    apply filter_ext. intros item.
    apply (forallb_map_to_list (fun k v => strict_eq (of_option (item !! k)) v)).
Qed.

Lemma filter_keeps_matching_pairs_witness :
  let db : IDb.database :=
    {[ "employee" :=
         IDb.ObjectStore {[ IDb.KNum 1 := <["id" := JNum 1]> Examples.alice;
                            IDb.KNum 2 := <["id" := JNum 2]> Examples.bob ]} 3 ]} in
  (exists found,
      IDb.filter "employee" {[ "address.city" := Val (JStr "London") ]} db
      = Ok found /\
      found = [ <["id" := JNum 1]> Examples.alice ]) /\
  is_ok (IDb.filter "project" ∅ db) = false.
Proof.
  intros db.
  destruct filter_keeps_matching_pairs as (Hfilter & Hmissing & _).
  split.
  - eexists. split.
    + apply (Hfilter "employee" _ db
               (IDb.ObjectStore {[ IDb.KNum 1 := <["id" := JNum 1]> Examples.alice;
                                   IDb.KNum 2 := <["id" := JNum 2]> Examples.bob ]} 3)).
      reflexivity.
    + vm_compute. reflexivity.
  - apply Hmissing. reflexivity.
Defined.

(** C5, as the specification states it, fails on [filterBy] of LSDB: Alice's
    document matches the pair [address.city = London] by dot-path resolution
    and the pair [age = "28"] by loose equality, and [filterBy] keeps it for
    neither. *)
Lemma filterBy_counterexample :
  let uuid := Examples.counting_uuid in
  let w := Examples.create uuid "employee" Examples.alice (World ∅ 0) in
  let acc := fst (LSDB.bucket uuid LSDBUtil.prefix "employee" w) in
  let w1 := snd (LSDB.bucket uuid LSDBUtil.prefix "employee" w) in
  let stored : doc := Examples.alice ∪ {[ "id" := JStr (uuid 0%nat) ]} in
  LSDB.all acc w1 = [stored] /\
  loose_eq (dot_path stored "address.city") (Val (JStr "London")) = true /\
  LSDB.filterBy acc {[ "address.city" := Val (JStr "London") ]} w1 = [] /\
  loose_eq (dot_path stored "age") (Val (JStr "28")) = true /\
  LSDB.filterBy acc {[ "age" := Val (JStr "28") ]} w1 = [].
Proof.
  intros uuid w acc w1 stored. repeat split; vm_compute; reflexivity.
Qed.

End Filter.

(** ** Identifiers *)

Section Identifiers.
Import Lifetime.

Variable uuid : nat -> string.
Variable prefix : string.

Lemma step_count c w :
  (uuid_count w <= uuid_count (snd (step uuid prefix c w)))%nat.
Proof.
  destruct c; cbn; try lia.
  - unfold LSDB._ensure. destruct (localStorage w !! _); cbn; lia.
  - unfold LSDB._ensure.
    destruct (localStorage w !! _); cbn;
      destruct (findIndex _ _); cbn; lia.
  - unfold LSDB._ensure. destruct (localStorage w !! _); cbn; lia.
  - unfold LSDB._ensure. destruct (localStorage w !! _); cbn; lia.
  - unfold LSDB.createBucket, LSDB._ensure.
    destruct (localStorage w !! _); cbn; lia.
Qed.

Lemma ensure_count b w :
  uuid_count (LSDB._ensure prefix b w) = uuid_count w.
Proof. unfold LSDB._ensure. by destruct (localStorage w !! _). Qed.

Lemma step_assigned c w id :
  assigned c (fst (step uuid prefix c w)) = Some id ->
  id = Val (JStr (uuid (uuid_count w))) /\
  uuid_count (snd (step uuid prefix c w)) = S (uuid_count w).
Proof.
  destruct c as [b item| | | | |]; cbn; try discriminate.
  destruct (item !! "id") eqn:Hid; [discriminate|].
  intros [= <-]. rewrite !ensure_count. split; [|reflexivity].
  unfold LSDB.id_of.
  rewrite (lookup_union_r item _ "id" Hid), lookup_singleton_eq.
  reflexivity.
Qed.

Lemma assigned_ids_cons c rest w :
  assigned_ids uuid prefix (c :: rest) w =
  match assigned c (fst (step uuid prefix c w)) with
  | Some id => id :: assigned_ids uuid prefix rest (snd (step uuid prefix c w))
  | None => assigned_ids uuid prefix rest (snd (step uuid prefix c w))
  end.
Proof. cbn [assigned_ids]. by destruct (step uuid prefix c w). Qed.

Lemma assigned_ids_from calls w id :
  id ∈ assigned_ids uuid prefix calls w ->
  exists n, id = Val (JStr (uuid n)) /\ (uuid_count w <= n)%nat.
Proof.
  revert w. induction calls as [|c rest IH]; intros w.
  - intros H. by apply elem_of_nil in H.
  - rewrite assigned_ids_cons. pose proof (step_count c w) as Hmono.
    destruct (assigned c (fst (step uuid prefix c w))) as [id'|] eqn:Ha.
    + apply step_assigned in Ha as [-> Hcount].
      intros [-> | Hin]%elem_of_cons; [eauto|].
      destruct (IH _ Hin) as (n & -> & Hn). exists n. split; [done | lia].
    + intros Hin. destruct (IH _ Hin) as (n & -> & Hn).
      exists n. split; [done | lia].
Qed.

(** C6, as the code has it.  A document inserted without an id is returned
    with the next identifier of [crypto.randomUUID]: as long as that source
    never repeats, the ids the store assigns over its lifetime are pairwise
    distinct, whatever is inserted, updated or deleted in between.  An id the
    caller supplies is stored as it is. *)
Theorem assigned_ids_distinct :
  ((forall m n, uuid m = uuid n -> m = n) ->
   forall calls w, NoDup (assigned_ids uuid prefix calls w)) /\
  (forall b item w j,
      item !! "id" = Some j ->
      let acc := fst (LSDB.bucket uuid prefix b w) in
      let w1 := snd (LSDB.bucket uuid prefix b w) in
      fst (LSDB.insert acc item w1) = item).
Proof.
  split.
  - intros Hinj calls. induction calls as [|c rest IH]; intros w.
    + constructor.
    + rewrite assigned_ids_cons.
      destruct (assigned c (fst (step uuid prefix c w))) as [id|] eqn:Ha;
        [|apply IH].
      apply step_assigned in Ha as [-> Hcount].
      constructor; [|apply IH].
      intros (n & Heq & Hn)%assigned_ids_from.
      injection Heq as Heq. apply Hinj in Heq. lia.
  - intros b item w j Hid. cbn.
    apply map_eq. intros k.
    destruct (decide (k = "id")) as [->|Hne].
    + rewrite Hid. by apply lookup_union_Some_l.
    + destruct (item !! k) eqn:Hk.
      * by apply lookup_union_Some_l.
      * rewrite (lookup_union_r item _ k Hk). by rewrite lookup_singleton_ne.
Qed.

End Identifiers.

Section IdentifiersExamples.
Import Lifetime.

Lemma counting_uuid_inj m n :
  Examples.counting_uuid m = Examples.counting_uuid n -> m = n.
Proof.
  unfold Examples.counting_uuid. intros H.
  apply (inj pretty). by simplify_eq/=.
Qed.

Lemma assigned_ids_distinct_witness :
  let calls :=
    [ Insert "users" {[ "name" := JStr "Mir" ]};
      Delete "users" (Val (JStr (Examples.counting_uuid 0)));
      Insert "users" {[ "name" := JStr "John" ]} ] in
  assigned_ids Examples.counting_uuid "APP_" calls (World ∅ 0) =
    [ Val (JStr "uuid-0"); Val (JStr "uuid-1") ] /\
  NoDup (assigned_ids Examples.counting_uuid "APP_" calls (World ∅ 0)) /\
  fst (LSDB.insert (fst (LSDB.bucket Examples.counting_uuid "APP_" "users" (World ∅ 0)))
         {[ "id" := JStr "mine"; "name" := JStr "Sara" ]}
         (snd (LSDB.bucket Examples.counting_uuid "APP_" "users" (World ∅ 0))))
  = {[ "id" := JStr "mine"; "name" := JStr "Sara" ]}.
Proof.
  intros calls. split; [vm_compute; reflexivity|]. split.
  - apply (proj1 (assigned_ids_distinct Examples.counting_uuid "APP_")
             counting_uuid_inj).
  - apply (proj2 (assigned_ids_distinct Examples.counting_uuid "APP_")
             "users" _ (World ∅ 0) (JStr "mine")).
    reflexivity.
Defined.

(** C6, as the specification states it, fails on the code: an id the caller
    supplies is not checked, and inserting it twice leaves two documents of
    the bucket with the same id. *)
Lemma insert_counterexample :
  let uuid := Examples.counting_uuid in
  let item : doc := {[ "id" := JStr "a"; "name" := JStr "Mir" ]} in
  let w := Examples.create uuid "users" item
             (Examples.create uuid "users" item (World ∅ 0)) in
  LSDB._load LSDBUtil.prefix "users" w = [item; item] /\
  ~ NoDup (map LSDB.id_of (LSDB._load LSDBUtil.prefix "users" w)).
Proof.
  intros uuid item w.
  assert (LSDB._load LSDBUtil.prefix "users" w = [item; item]) as Hload
    by (vm_compute; reflexivity).
  split; [exact Hload|]. rewrite Hload. cbn.
  intros Hnodup. apply NoDup_cons in Hnodup as [Hnotin _].
  apply Hnotin. left.
Qed.

End IdentifiersExamples.

(** ** dump and import *)

Section DumpImport.
Import Spec.

Variable uuid : nat -> string.

Abbreviation prefix := LSDBUtil.prefix.

Lemma union_id_supplied (item : doc) u :
  is_Some (item !! "id") -> item ∪ {[ "id" := JStr u ]} = item.
Proof.
  intros [j Hid]. apply map_eq. intros k.
  destruct (item !! k) eqn:Hk.
  - by apply lookup_union_Some_l.
  - rewrite (lookup_union_r item _ k Hk). apply lookup_singleton_ne. congruence.
Qed.

Lemma ensure_existing b w :
  is_Some (localStorage w !! LSDB._key prefix b) -> LSDB._ensure prefix b w = w.
Proof. intros [data H]. unfold LSDB._ensure. by rewrite H. Qed.

Lemma ensure_keeps b key data w :
  localStorage w !! key = Some data ->
  localStorage (LSDB._ensure prefix b w) !! key = Some data.
Proof.
  intros H. unfold LSDB._ensure.
  destruct (localStorage w !! LSDB._key prefix b) eqn:E; [done|]. cbn.
  rewrite lookup_insert_ne; [done | congruence].
Qed.

Lemma ensure_lookup b key data w :
  localStorage (LSDB._ensure prefix b w) !! key = Some data ->
  localStorage w !! key = Some data \/
  (key = LSDB._key prefix b /\ data = [] /\ localStorage w !! key = None).
Proof.
  unfold LSDB._ensure.
  destruct (localStorage w !! LSDB._key prefix b) eqn:E; [by left|]. cbn.
  destruct (decide (LSDB._key prefix b = key)) as [<-|Hne].
  - rewrite lookup_insert_eq. intros [= <-]. by right.
  - rewrite lookup_insert_ne by done. by left.
Qed.

Lemma prefix_split p key :
  String.prefix p key = true -> exists b, key = p ++ b.
Proof.
  revert key. induction p as [|c p IH]; intros key H.
  - by exists key.
  - destruct key as [|c' key]; [discriminate|]. cbn in H.
    destruct (ascii_dec c c') as [<-|]; [|discriminate].
    destruct (IH _ H) as [b ->]. by exists b.
Qed.

Lemma listBuckets_exists b w :
  b ∈ LSDB.listBuckets prefix w ->
  is_Some (localStorage w !! LSDB._key prefix b).
Proof.
  intros (key & Hpre & -> & Hkey)%listBuckets_key.
  destruct (prefix_split _ _ Hpre) as [b ->].
  by rewrite remove_first_prefix.
Qed.

Abbreviation dump_loop := (LSDBUtil.dump_loop uuid).

Lemma dump_loop_snapshot buckets dump w :
  snapshot_of dump w ->
  snapshot_of (fst (dump_loop buckets (dump, w)))
              (snd (dump_loop buckets (dump, w))).
Proof.
  revert dump w. induction buckets as [|b buckets IH]; intros dump w H; [done|].
  cbn. apply IH. intros b' items. unfold assign.
  destruct (String.eqb b "__proto__");
    [intros Hb'; by apply ensure_keeps, H|].
  destruct (decide (b = b')) as [<-|Hne].
  - rewrite lookup_insert_eq. intros [= <-].
    unfold LSQuery.toList. rewrite load_ensure. apply lookup_ensure.
  - rewrite lookup_insert_ne by done. intros Hb'.
    by apply ensure_keeps, H.
Qed.

Lemma dump_loop_existing buckets dump w :
  (forall b, b ∈ buckets -> is_Some (localStorage w !! LSDB._key prefix b)) ->
  snd (dump_loop buckets (dump, w)) = w.
Proof.
  revert dump. induction buckets as [|b buckets IH]; intros dump H; [done|].
  cbn. rewrite ensure_existing by (apply H; left).
  apply IH. intros b' Hb'. apply H. by right.
Qed.

Lemma dump_loop_have_id buckets dump w :
  documents_have_id prefix w ->
  documents_have_id prefix (snd (dump_loop buckets (dump, w))).
Proof.
  revert dump w. induction buckets as [|b buckets IH]; intros dump w H; [done|].
  cbn. apply IH. intros key data d Hkey Hpre Hd.
  apply ensure_lookup in Hkey as [Hkey | (_ & -> & _)].
  - by apply (H key data d).
  - by apply elem_of_nil in Hd.
Qed.

Lemma dump_loop_load buckets dump w b :
  LSDB._load prefix b (snd (dump_loop buckets (dump, w))) = LSDB._load prefix b w.
Proof.
  revert dump w. induction buckets as [|b0 buckets IH]; intros dump w; [done|].
  change (dump_loop (b0 :: buckets) (dump, w))
    with (dump_loop buckets
            (assign b0 (LSDB._load prefix b0 (LSDB._ensure prefix b0 w)) dump,
             LSDB._ensure prefix b0 w)).
  rewrite IH. apply load_ensure_any.
Qed.

Lemma dump_unfold bucketName w :
  exists buckets,
    dump_loop buckets (∅, w) =
      (match fst (LSDBUtil.dump uuid bucketName w) with
       | Text data => data
       | Malformed => ∅
       end, snd (LSDBUtil.dump uuid bucketName w)) /\
    (exists data, fst (LSDBUtil.dump uuid bucketName w) = Text data) /\
    (bucketName = None -> buckets = LSDB.listBuckets prefix w).
Proof.
  unfold LSDBUtil.dump.
  set (buckets := match bucketName with
                  | Some b => if String.eqb b "" then LSDB.listBuckets prefix w else [b]
                  | None => LSDB.listBuckets prefix w
                  end).
  exists buckets. fold (dump_loop buckets (∅, w)).
  destruct (dump_loop buckets (∅, w)) as [data w1]. cbn.
  split; [done|]. split; [eauto|]. by intros ->.
Qed.

(** Inserting the documents of a snapshot, one by one. *)
Lemma insert_supplied b item w stored :
  localStorage w !! LSDB._key prefix b = Some stored ->
  is_Some (item !! "id") ->
  localStorage
    (let '(acc, w1) := LSDBUtil.lsdbInstance_bucket uuid b w in
     snd (LSDB.insert acc item w1))
  = <[LSDB._key prefix b := (stored ++ [item])%list]> (localStorage w).
Proof.
  intros Hw Hid. cbn. rewrite ensure_existing by eauto.
  rewrite (union_id_supplied item _ Hid). cbn.
  unfold LSDB._load. by rewrite Hw.
Qed.

Lemma insert_loop b items w stored :
  localStorage w !! LSDB._key prefix b = Some stored ->
  (forall d : doc, d ∈ items -> is_Some (d !! "id")) ->
  localStorage
    (foldl (fun w item =>
              let '(acc, w) := LSDBUtil.lsdbInstance_bucket uuid b w in
              snd (LSDB.insert acc item w)) w items)
  = <[LSDB._key prefix b := (stored ++ items)%list]> (localStorage w).
Proof.
  revert w stored. induction items as [|item items IH]; intros w stored Hw Hid.
  - cbn. rewrite app_nil_r. symmetry. by apply insert_id.
  - cbn [foldl].
    assert (is_Some (item !! "id")) as Hitem by (apply Hid; left).
    pose proof (insert_supplied b item w stored Hw Hitem) as Hstep.
    rewrite (IH _ (stored ++ [item])%list).
    + rewrite Hstep, insert_insert_eq. by rewrite <- app_assoc.
    + rewrite Hstep. apply lookup_insert_eq.
    + intros d Hd. apply Hid. by right.
Qed.

Lemma import_bucket_overwrite b items w :
  (forall d : doc, d ∈ items -> is_Some (d !! "id")) ->
  localStorage (LSDBUtil.import_bucket uuid true w (b, items))
  = <[LSDB._key prefix b := items]> (localStorage w).
Proof.
  intros Hid. unfold LSDBUtil.import_bucket.
  erewrite insert_loop with (stored := []); [|..|exact Hid].
  - unfold LSDB.createBucket, LSDB._ensure, LSDB.deleteBucket. cbn.
    rewrite lookup_delete_eq. cbn.
    by rewrite insert_insert_eq, insert_delete_eq.
  - unfold LSDB.createBucket, LSDB._ensure, LSDB.deleteBucket. cbn.
    rewrite lookup_delete_eq. cbn. apply lookup_insert_eq.
Qed.

Lemma import_loop entries w :
  documents_have_id prefix w ->
  (forall b items, (b, items) ∈ entries ->
                   localStorage w !! LSDB._key prefix b = Some items) ->
  localStorage (foldl (LSDBUtil.import_bucket uuid true) w entries)
  = localStorage w.
Proof.
  intros Hids. remember (localStorage w) as ls eqn:Hls.
  assert (forall key data (d : doc), ls !! key = Some data ->
            String.prefix prefix key = true -> d ∈ data -> is_Some (d !! "id"))
    as Hids' by (subst ls; exact Hids).
  clear Hids. revert w Hls.
  induction entries as [|[b items] entries IH]; intros w Hls Hentries; [done|].
  cbn [foldl].
  assert (ls !! LSDB._key prefix b = Some items) as Hb
    by (apply Hentries; left).
  assert (localStorage (LSDBUtil.import_bucket uuid true w (b, items)) = ls)
    as Hstep.
  { rewrite import_bucket_overwrite.
    - rewrite <- Hls. by apply insert_id.
    - intros d Hd. apply (Hids' _ _ d Hb); [apply prefix_append | done]. }
  apply IH; [done|]. intros b' items' Hin. apply Hentries. by right.
Qed.

(** The store keeps the invariant itself: whatever is inserted, updated or
    deleted, every stored document carries an id. *)

Lemma have_id_load b w (d : doc) :
  documents_have_id prefix w -> d ∈ LSDB._load prefix b w -> is_Some (d !! "id").
Proof.
  intros H Hd. unfold LSDB._load in Hd.
  destruct (localStorage w !! LSDB._key prefix b) as [data|] eqn:E.
  - apply (H _ _ d E); [apply prefix_append | done].
  - by apply elem_of_nil in Hd.
Qed.

Lemma have_id_ensure b w :
  documents_have_id prefix w -> documents_have_id prefix (LSDB._ensure prefix b w).
Proof.
  intros H key data d Hkey Hpre Hd.
  apply ensure_lookup in Hkey as [Hkey | (_ & -> & _)].
  - by apply (H key data d).
  - by apply elem_of_nil in Hd.
Qed.

Lemma have_id_save b data w :
  documents_have_id prefix w ->
  (forall d : doc, d ∈ data -> is_Some (d !! "id")) ->
  documents_have_id prefix (LSDB._save prefix b data w).
Proof.
  intros H Hdata key data' d Hkey Hpre Hd. cbn in Hkey.
  apply lookup_insert_Some in Hkey as [[_ <-] | [_ Hkey]].
  - by apply Hdata.
  - by apply (H key data' d).
Qed.

Lemma have_id_step c w :
  documents_have_id prefix w ->
  documents_have_id prefix (snd (Lifetime.step uuid prefix c w)).
Proof.
  intros H. destruct c as [b item|b id newData|b id|b|b|b]; cbn.
  - apply have_id_save.
    + intros key data d Hkey. apply (have_id_ensure b w H key data d Hkey).
    + intros d [Hd | ->%list_elem_of_singleton]%elem_of_app.
      * rewrite load_ensure in Hd. by apply (have_id_load b w).
      * apply lookup_union_is_Some. right. rewrite lookup_singleton_eq. eauto.
  - rewrite load_ensure.
    destruct (findIndex _ (LSDB._load prefix b w)) as [i|] eqn:Hfind; cbn;
      [|by apply have_id_ensure].
    destruct (findIndex_Some _ _ _ Hfind) as (old & Hold & _).
    rewrite Hold. cbn.
    apply have_id_save; [by apply have_id_ensure|].
    intros d (j & Hj)%list_elem_of_lookup_1.
    apply list_lookup_insert_Some in Hj as [(_ & <- & _) | [_ Hj]].
    + apply lookup_union_is_Some. right.
      apply (have_id_load b w old H). by eapply list_elem_of_lookup_2.
    + apply (have_id_load b w d H). by eapply list_elem_of_lookup_2.
  - apply have_id_save; [by apply have_id_ensure|].
    intros d Hd. apply list_elem_of_In, filter_In in Hd as [Hd _].
    rewrite load_ensure in Hd. by apply (have_id_load b w d H), list_elem_of_In.
  - by apply have_id_ensure.
  - by apply have_id_ensure.
  - intros key data d Hkey. cbn in Hkey.
    apply lookup_delete_Some in Hkey as [_ Hkey]. by apply (H key data d).
Qed.

Lemma have_id_run calls w :
  documents_have_id prefix w ->
  documents_have_id prefix (Lifetime.run uuid prefix calls w).
Proof.
  revert w. induction calls as [|c calls IH]; intros w H; [done|].
  cbn. by apply IH, have_id_step.
Qed.

Lemma have_id_empty n : documents_have_id prefix (World ∅ n).
Proof. intros key data d Hkey. cbn in Hkey. by rewrite lookup_empty in Hkey. Qed.

(** C7.  For every state of the store whose documents carry an id, [dump]
    followed by [import] of the snapshot with [overwrite = true] leaves every
    bucket with the documents it had, ids and field values as they were:
    [localStorage] after the import is [localStorage] after the dump, which
    for a dump of all buckets is [localStorage] before it.  (The states
    the store's own calls reach from an empty [localStorage] are such
    states: see [have_id_run].) *)
Theorem dump_import_roundtrip (bucketName : option string) (w : world) :
  documents_have_id prefix w ->
  let snapshot := fst (LSDBUtil.dump uuid bucketName w) in
  let w1 := snd (LSDBUtil.dump uuid bucketName w) in
  let w2 := LSDBUtil.import uuid snapshot true w1 in
  localStorage w2 = localStorage w1 /\
  (forall b, LSDB._load prefix b w2 = LSDB._load prefix b w) /\
  (bucketName = None -> localStorage w2 = localStorage w).
Proof.
  intros Hids snapshot w1 w2.
  destruct (dump_unfold bucketName w) as (buckets & Hloop & [data Hdata] & Hall).
  assert (w1 = snd (dump_loop buckets (∅, w))) as Hw1 by (by rewrite Hloop).
  assert (snapshot_of data w1) as Hsnap.
  { pose proof (dump_loop_snapshot buckets ∅ w) as H.
    rewrite Hloop, Hdata in H. cbn in H. apply H.
    intros b items Hb. by rewrite lookup_empty in Hb. }
  assert (documents_have_id prefix w1) as Hids1.
  { pose proof (dump_loop_have_id buckets ∅ w Hids) as H.
    by rewrite Hloop in H. }
  assert (forall b, LSDB._load prefix b w1 = LSDB._load prefix b w) as Hload1.
  { intros b. rewrite Hw1. apply dump_loop_load. }
  assert (localStorage w2 = localStorage w1) as Hstorage.
  { subst w2 snapshot. rewrite Hdata. cbn.
    apply import_loop; [done|]. intros b items Hin.
    by apply Hsnap, elem_of_map_to_list. }
  split; [done|]. split.
  - intros b. rewrite <- Hload1. unfold LSDB._load. by rewrite Hstorage.
  - intros HNone. rewrite Hstorage, Hw1, (Hall HNone).
    f_equal. apply dump_loop_existing. intros b. apply listBuckets_exists.
Qed.

End DumpImport.

Lemma dump_import_roundtrip_witness :
  let uuid := Examples.counting_uuid in
  let w := Examples.employees uuid in
  localStorage
    (LSDBUtil.import uuid (fst (LSDBUtil.dump uuid None w)) true
       (snd (LSDBUtil.dump uuid None w)))
  = localStorage w.
Proof.
  intros uuid w.
  apply (dump_import_roundtrip uuid None w); [|reflexivity].
  intros key data d Hkey _ Hd.
  unfold w in Hkey. rewrite employees_storage in Hkey.
  apply lookup_singleton_Some in Hkey as [<- <-].
  rewrite !elem_of_cons, elem_of_nil in Hd.
  destruct Hd as [-> | [-> | [-> | [-> | []]]]]; vm_compute; eauto.
Defined.

(** ** orderBy and orderByDescending *)

Section StableSort.
Import ByKey.
Context {A K : Type} (key : A -> K) (lt : K -> K -> bool).

Hypothesis lt_asym : forall a b, lt a b = true -> lt b a = false.
Hypothesis lt_total : forall a b, lt a b = false -> lt b a = false -> a = b.
Hypothesis lt_trans :
  forall a b c, lt a b = true -> lt b c = true -> lt a c = true.

Lemma lt_irrefl k : lt k k = false.
Proof. destruct (lt k k) eqn:E; [|done]. by rewrite (lt_asym _ _ E) in E. Qed.

Lemma by_key_pos a b : (0 <? by_key key lt a b)%Z = lt (key b) (key a).
Proof. unfold by_key. by repeat destruct (lt _ _). Qed.

Lemma le_trans a b c : le key lt a b -> le key lt b c -> le key lt a c.
Proof.
  unfold le. intros Hab Hbc.
  destruct (lt (key c) (key a)) eqn:Hca; [|done].
  destruct (lt (key a) (key b)) eqn:Hab'.
  - by rewrite (lt_trans _ _ _ Hca Hab') in Hbc.
  - rewrite <- (lt_total _ _ Hab' Hab) in Hbc. congruence.
Qed.

Lemma sort_insert_perm cmp (x : A) l :
  Permutation (x :: l) (sort_insert cmp x l).
Proof.
  induction l as [|y l IH]; cbn; [done|].
  destruct (0 <? cmp x y)%Z; [|done].
  rewrite perm_swap. by constructor.
Qed.

Lemma array_sort_perm cmp (l : list A) : Permutation l (array_sort cmp l).
Proof.
  induction l as [|x l IH]; cbn; [done|].
  rewrite <- sort_insert_perm. by constructor.
Qed.

Lemma sort_insert_sorted x l :
  Sorted (le key lt) l -> Sorted (le key lt) (sort_insert (by_key key lt) x l).
Proof.
  induction l as [|y l IH]; intros Hs; cbn.
  - repeat constructor.
  - rewrite by_key_pos. destruct (lt (key y) (key x)) eqn:Hyx.
    + apply Sorted_inv in Hs as [Hs Hhd]. constructor; [by apply IH|].
      destruct l as [|z l]; cbn.
      * constructor. unfold le. by apply lt_asym.
      * rewrite by_key_pos. destruct (lt (key z) (key x)).
        -- constructor. by apply HdRel_inv in Hhd.
        -- constructor. unfold le. by apply lt_asym.
    + constructor; [done|]. by constructor.
Qed.

Lemma array_sort_sorted l :
  StronglySorted (le key lt) (array_sort (by_key key lt) l).
Proof.
  apply Sorted_StronglySorted; [intros a b c; apply le_trans|].
  induction l as [|x l IH]; cbn; [constructor|].
  by apply sort_insert_sorted.
Qed.

(** An element is inserted after elements of a smaller key only: those
    that tie with it stay behind it. *)
Lemma sort_insert_tie k x l :
  List.filter (tie key lt k) (sort_insert (by_key key lt) x l) =
  List.filter (tie key lt k) (x :: l).
Proof.
  induction l as [|y l IH]; [done|].
  cbn [sort_insert]. rewrite by_key_pos.
  destruct (lt (key y) (key x)) eqn:Hyx; [|done].
  cbn [List.filter] in *. rewrite IH.
  destruct (tie key lt k x) eqn:Hx; [|done].
  destruct (tie key lt k y) eqn:Hy; [|done].
  exfalso. unfold tie in Hx, Hy.
  apply andb_prop in Hx as [Hx1 Hx2]. apply andb_prop in Hy as [Hy1 Hy2].
  apply negb_true_iff in Hx1, Hx2, Hy1, Hy2.
  rewrite <- (lt_total _ _ Hx1 Hx2), <- (lt_total _ _ Hy1 Hy2) in Hyx.
  by rewrite lt_irrefl in Hyx.
Qed.

Lemma array_sort_tie k l :
  List.filter (tie key lt k) (array_sort (by_key key lt) l) =
  List.filter (tie key lt k) l.
Proof.
  induction l as [|x l IH]; [done|].
  cbn [array_sort foldr]. fold (array_sort (by_key key lt) l).
  rewrite sort_insert_tie. cbn. by rewrite IH.
Qed.
End StableSort.

Lemma sort_insert_ext {A} (cmp cmp' : A -> A -> Z) x l :
  (forall y, y ∈ l -> cmp x y = cmp' x y) ->
  sort_insert cmp x l = sort_insert cmp' x l.
Proof.
  induction l as [|y l IH]; intros H; cbn; [done|].
  rewrite (H y) by left. rewrite IH; [done|]. intros z Hz. apply H. by right.
Qed.

Lemma array_sort_ext {A} (cmp cmp' : A -> A -> Z) l :
  (forall a b, a ∈ l -> b ∈ l -> cmp a b = cmp' a b) ->
  array_sort cmp l = array_sort cmp' l.
Proof.
  induction l as [|x l IH]; intros H; [done|].
  cbn. fold (array_sort cmp l). fold (array_sort cmp' l).
  rewrite IH by (intros a b Ha Hb; apply H; by right).
  apply sort_insert_ext. intros y Hy. apply H; [left|].
  right. by rewrite (array_sort_perm cmp' l).
Qed.

Lemma StronglySorted_impl_in {A} (R R' : A -> A -> Prop) l :
  (forall a b, a ∈ l -> b ∈ l -> R a b -> R' a b) ->
  StronglySorted R l -> StronglySorted R' l.
Proof.
  intros H Hs. induction Hs as [|a l Hs IH Hall]; constructor.
  - apply IH. intros x y Hx Hy. apply H; by right.
  - rewrite List.Forall_forall in *. intros b Hb.
    apply H; [left | right; by apply list_elem_of_In | by apply Hall].
Qed.

(** The orders of the two kinds of comparable keys. *)

Lemma Z_ltb_asym a b : (a <? b)%Z = true -> (b <? a)%Z = false.
Proof. lia. Qed.

Lemma Z_ltb_total a b : (a <? b)%Z = false -> (b <? a)%Z = false -> a = b.
Proof. lia. Qed.

Lemma Z_ltb_trans a b c :
  (a <? b)%Z = true -> (b <? c)%Z = true -> (a <? c)%Z = true.
Proof. lia. Qed.

Lemma ascii_compare_lt_trans a b c :
  Ascii.compare a b = Lt -> Ascii.compare b c = Lt -> Ascii.compare a c = Lt.
Proof. unfold Ascii.compare. rewrite !N.compare_lt_iff. lia. Qed.

Lemma string_compare_lt_trans s1 s2 s3 :
  String.compare s1 s2 = Lt -> String.compare s2 s3 = Lt ->
  String.compare s1 s3 = Lt.
Proof.
  revert s2 s3. induction s1 as [|c1 s1 IH]; intros [|c2 s2] [|c3 s3]; cbn;
    try done.
  destruct (Ascii.compare c1 c2) eqn:H12; try done;
    destruct (Ascii.compare c2 c3) eqn:H23; try done; intros H1 H2.
  - apply Ascii.compare_eq_iff in H12 as ->. rewrite H23. by eapply IH.
  - apply Ascii.compare_eq_iff in H12 as ->. by rewrite H23.
  - apply Ascii.compare_eq_iff in H23 as <-. by rewrite H12.
  - by rewrite (ascii_compare_lt_trans _ _ _ H12 H23).
Qed.

Lemma string_ltb_asym a b : String.ltb a b = true -> String.ltb b a = false.
Proof.
  unfold String.ltb. rewrite (String.compare_antisym b a).
  by destruct (String.compare a b).
Qed.

Lemma string_ltb_total a b :
  String.ltb a b = false -> String.ltb b a = false -> a = b.
Proof.
  unfold String.ltb. rewrite (String.compare_antisym b a).
  destruct (String.compare a b) eqn:E; try done.
  intros _ _. by apply String.compare_eq_iff.
Qed.

Lemma string_ltb_trans a b c :
  String.ltb a b = true -> String.ltb b c = true -> String.ltb a c = true.
Proof.
  unfold String.ltb.
  destruct (String.compare a b) eqn:H1; try done.
  destruct (String.compare b c) eqn:H2; try done.
  by rewrite (string_compare_lt_trans _ _ _ H1 H2).
Qed.

Section OrderByKeys.
Import ByKey Spec.
Context {A K : Type} (selector : A -> value) (data : list A).
Context (inj : K -> value) (key : A -> K) (lt : K -> K -> bool).

Hypothesis selector_key : forall a, a ∈ data -> selector a = inj (key a).
Hypothesis js_lt_inj : forall k1 k2, js_lt (inj k1) (inj k2) = lt k1 k2.
Hypothesis lt_asym : forall a b, lt a b = true -> lt b a = false.
Hypothesis lt_total : forall a b, lt a b = false -> lt b a = false -> a = b.
Hypothesis lt_trans :
  forall a b c, lt a b = true -> lt b c = true -> lt a c = true.
Hypothesis key_le_inj :
  forall k1 k2, lt k2 k1 = false -> key_le (inj k1) (inj k2).
Hypothesis strict_eq_inj :
  forall k1 k2, strict_eq (inj k1) (inj k2) = negb (lt k1 k2) && negb (lt k2 k1).

Let gt (a b : K) : bool := lt b a.

Lemma ties_keep_order_by_key (below : K -> K -> bool) sorted :
  (forall k1 k2,
      strict_eq (inj k1) (inj k2) = negb (below k1 k2) && negb (below k2 k1)) ->
  Permutation data sorted ->
  (forall k, List.filter (tie key below k) sorted =
             List.filter (tie key below k) data) ->
  ties_keep_order selector data sorted.
Proof.
  intros Heq Hperm H a0 Ha0.
  rewrite (filter_ext_in _ (tie key below (key a0)) sorted).
  - rewrite H. symmetry. apply filter_ext_in. intros a Ha.
    apply list_elem_of_In in Ha.
    by rewrite (selector_key a0 Ha0), (selector_key a Ha), Heq.
  - intros a Ha. apply list_elem_of_In in Ha. rewrite <- Hperm in Ha.
    by rewrite (selector_key a0 Ha0), (selector_key a Ha), Heq.
Qed.

Lemma orderBy_by_key :
  Permutation data (LSQuery.orderBy selector data) /\
  sorted_ascending selector (LSQuery.orderBy selector data) /\
  ties_keep_order selector data (LSQuery.orderBy selector data).
Proof.
  assert (LSQuery.orderBy selector data = array_sort (by_key key lt) data) as ->.
  { apply array_sort_ext. intros a b Ha Hb.
    unfold LSQuery.ascending, by_key, js_gt.
    fold (js_lt (selector b) (selector a)).
    by rewrite (selector_key a Ha), (selector_key b Hb), !js_lt_inj. }
  split; [apply array_sort_perm|]. split.
  - apply (StronglySorted_impl_in (le key lt));
      [|by apply array_sort_sorted].
    intros a b Ha Hb Hle. rewrite <- array_sort_perm in Ha, Hb.
    rewrite (selector_key a Ha), (selector_key b Hb). by apply key_le_inj.
  - apply (ties_keep_order_by_key lt); [done | apply array_sort_perm|].
    intros k. by apply array_sort_tie.
Qed.

Lemma orderByDescending_by_key :
  Permutation data (LSQuery.orderByDescending selector data) /\
  sorted_descending selector (LSQuery.orderByDescending selector data) /\
  ties_keep_order selector data (LSQuery.orderByDescending selector data).
Proof.
  assert (LSQuery.orderByDescending selector data
          = array_sort (by_key key gt) data) as ->.
  { apply array_sort_ext. intros a b Ha Hb.
    unfold LSQuery.descending, by_key, js_gt, gt.
    fold (js_lt (selector b) (selector a)).
    by rewrite (selector_key a Ha), (selector_key b Hb), !js_lt_inj. }
  assert (forall a b, gt a b = true -> gt b a = false) as gt_asym
    by (intros a b; apply lt_asym).
  assert (forall a b, gt a b = false -> gt b a = false -> a = b) as gt_total
    by (intros a b H1 H2; by apply lt_total).
  assert (forall a b c, gt a b = true -> gt b c = true -> gt a c = true)
    as gt_trans by (intros a b c H1 H2; by apply (lt_trans c b a)).
  split; [apply array_sort_perm|]. split.
  - apply (StronglySorted_impl_in (le key gt));
      [|by apply array_sort_sorted].
    intros a b Ha Hb Hle. rewrite <- array_sort_perm in Ha, Hb.
    rewrite (selector_key a Ha), (selector_key b Hb). by apply key_le_inj.
  - apply (ties_keep_order_by_key gt); [|apply array_sort_perm|].
    + intros k1 k2. unfold gt. rewrite strict_eq_inj. apply andb_comm.
    + intros k. by apply array_sort_tie.
Qed.
End OrderByKeys.

Section OrderBy.
Import Spec.

Lemma js_lt_numbers a b : js_lt (Val (JNum a)) (Val (JNum b)) = (a <? b)%Z.
Proof. unfold js_lt, IsLessThan. cbn. by destruct (a <? b)%Z. Qed.

Lemma js_lt_strings a b : js_lt (Val (JStr a)) (Val (JStr b)) = String.ltb a b.
Proof. unfold js_lt, IsLessThan. cbn. by destruct (String.ltb a b). Qed.

Lemma string_eqb_ltb a b :
  String.eqb a b = negb (String.ltb a b) && negb (String.ltb b a).
Proof.
  destruct (String.eqb_spec a b) as [->|Hne].
  - by rewrite (lt_irrefl String.ltb string_ltb_asym).
  - destruct (String.ltb a b) eqn:Hab; [done|].
    destruct (String.ltb b a) eqn:Hba; [done|].
    by destruct (Hne (string_ltb_total _ _ Hab Hba)).
Qed.

Lemma string_leb_ltb a b : String.ltb b a = false -> String.leb a b = true.
Proof.
  unfold String.ltb, String.leb. rewrite (String.compare_antisym b a).
  by destruct (String.compare a b).
Qed.



End OrderBy.

(** ** IDb.transaction *)

Section Transaction.
Import IDb.

Lemma run_callback_raise buckets callback e :
  fst (run_callback buckets (callback ++ [Raise e])%list) =
  fst (run_callback buckets callback).
Proof.
  induction callback as [|a callback IH]; [reflexivity|].
  cbn [app run_callback].
  destruct a as [b data|b data|b id|e']; [| | |reflexivity];
    (destruct (bool_decide (b ∈ buckets)); [|reflexivity]);
    match goal with |- context [match ?r with Ok _ => _ | Throw _ => _ end] =>
      destruct r; [|reflexivity] end;
    destruct (run_callback buckets (callback ++ [Raise e])%list),
             (run_callback buckets callback); cbn in *; by f_equal.
Qed.

Lemma transaction_state buckets callback callback' db :
  fst (run_callback buckets callback) = fst (run_callback buckets callback') ->
  snd (transaction buckets callback db) = snd (transaction buckets callback' db).
Proof.
  intros H. unfold transaction. destruct buckets as [|b buckets]; [done|].
  destruct (forallb _ _); [|done].
  destruct (run_callback (b :: buckets) callback) as [reqs thrown],
           (run_callback (b :: buckets) callback') as [reqs' thrown'].
  cbn in H. subst reqs'.
  by destruct (perform_all reqs db), thrown, thrown'.
Qed.

(** C8, on the code.  A callback that queues two inserts and then throws
    has its error reported, and both inserts committed: each of the two
    buckets holds one more record.  In general the database a transaction
    leaves is the same whether or not its callback ends by throwing. *)
Theorem transaction_commits_despite_throw :
  (let db : database :=
     {[ "employee" := ObjectStore ∅ 1; "project" := ObjectStore ∅ 1 ]} in
   let callback :=
     [ Add "employee" {[ "name" := JStr "Charlie" ]};
       Add "project" {[ "name" := JStr "Project X" ]};
       Raise (UserError "boom") ] in
   let outcome := transaction ["employee"; "project"] callback db in
   getAll "employee" db = Ok [] /\
   getAll "project" db = Ok [] /\
   fst outcome = Throw (UserError "boom") /\
   getAll "employee" (snd outcome)
     = Ok [ {[ "id" := JNum 1; "name" := JStr "Charlie" ]} ] /\
   getAll "project" (snd outcome)
     = Ok [ {[ "id" := JNum 1; "name" := JStr "Project X" ]} ]) /\
  (forall buckets callback e db,
      snd (transaction buckets (callback ++ [Raise e])%list db) =
      snd (transaction buckets callback db)).
Proof.
  split.
  - repeat split; vm_compute; reflexivity.
  - intros buckets callback e db.
    apply transaction_state, run_callback_raise.
Qed.

End Transaction.

(** * More properties of the code *)

Section MoreBuckets.
Variable uuid : nat -> string.
Variable prefix : string.

Lemma key_inj b b' : LSDB._key prefix b = LSDB._key prefix b' -> b = b'.
Proof.
  unfold LSDB._key. induction prefix as [|c p IH]; [done|].
  change (String c p ++ b) with (String c (p ++ b)).
  change (String c p ++ b') with (String c (p ++ b')).
  intros [= H]. by apply IH.
Qed.

Lemma listBuckets_iff b w :
  b ∈ LSDB.listBuckets prefix w <->
  is_Some (localStorage w !! LSDB._key prefix b).
Proof.
  split; [|apply listBuckets_lookup].
  intros (key & Hpre & -> & Hkey)%listBuckets_key.
  destruct (prefix_split _ _ Hpre) as [b ->].
  unfold LSDB._key. by rewrite remove_first_prefix.
Qed.

(** X1.  [listBuckets] lists exactly the names [b] whose key, the prefix
    followed by [b], is in [localStorage], and lists no name twice. *)
Theorem listBuckets_exact (w : world) :
  (forall b, b ∈ LSDB.listBuckets prefix w <->
             is_Some (localStorage w !! LSDB._key prefix b)) /\
  NoDup (LSDB.listBuckets prefix w).
Proof.
  split; [intros b; apply listBuckets_iff|].
  unfold LSDB.listBuckets.
  apply NoDup_ListNoDup, NoDup_map_NoDup_ForallPairs;
    [|apply List.NoDup_filter, NoDup_ListNoDup, NoDup_map_to_list].
  intros [k1 v1] [k2 v2] H1 H2 Heq.
  apply filter_In in H1 as [H1 P1], H2 as [H2 P2]. cbn in *.
  destruct (prefix_split _ _ P1) as [b1 ->], (prefix_split _ _ P2) as [b2 ->].
  rewrite !remove_first_prefix in Heq. subst b2.
  apply list_elem_of_In, elem_of_map_to_list in H1, H2. congruence.
Qed.

(** X2.  Creating a bucket a second time changes nothing, creating a bucket
    never alters the documents of any bucket, and the buckets listed
    afterwards are the created one and those listed before. *)
Theorem createBucket_keeps_data (b : string) (w : world) :
  LSDB.createBucket prefix b (LSDB.createBucket prefix b w)
    = LSDB.createBucket prefix b w /\
  (forall b', LSDB._load prefix b' (LSDB.createBucket prefix b w)
              = LSDB._load prefix b' w) /\
  (forall b', b' ∈ LSDB.listBuckets prefix (LSDB.createBucket prefix b w) <->
              b' = b \/ b' ∈ LSDB.listBuckets prefix w).
Proof.
  unfold LSDB.createBucket. split; [|split].
  - unfold LSDB._ensure at 1. by rewrite lookup_ensure.
  - intros b'. apply load_ensure_any.
  - intros b'. rewrite !listBuckets_iff. split.
    + intros [data Hdata].
      unfold LSDB._ensure in Hdata.
      destruct (localStorage w !! LSDB._key prefix b) eqn:E; [eauto|].
      cbn in Hdata. apply lookup_insert_Some in Hdata as [[Hk _] | [_ Hdata]].
      * left. symmetry. by apply key_inj.
      * eauto.
    + intros [-> | [data Hdata]].
      * rewrite lookup_ensure. eauto.
      * unfold LSDB._ensure.
        destruct (localStorage w !! LSDB._key prefix b) eqn:E; [eauto|]. cbn.
        destruct (decide (LSDB._key prefix b = LSDB._key prefix b')) as [Heq|Hne].
        -- rewrite <- Heq in Hdata. congruence.
        -- rewrite lookup_insert_ne by done. eauto.
Qed.

(** X3.  After [deleteBucket] the bucket is not listed and loads as empty;
    every other bucket keeps its documents and its place in the listing;
    deleting it again changes nothing. *)
Theorem deleteBucket_removes (b : string) (w : world) :
(b ∉ LSDB.listBuckets prefix (LSDB.deleteBucket prefix b w)) /\
  LSDB._load prefix b (LSDB.deleteBucket prefix b w) = [] /\
  (forall b', b' <> b ->
     LSDB._load prefix b' (LSDB.deleteBucket prefix b w) = LSDB._load prefix b' w /\
     (b' ∈ LSDB.listBuckets prefix (LSDB.deleteBucket prefix b w) <->
      b' ∈ LSDB.listBuckets prefix w)) /\
  LSDB.deleteBucket prefix b (LSDB.deleteBucket prefix b w)
    = LSDB.deleteBucket prefix b w.
Proof.
  split; [|split; [|split]].
  - rewrite listBuckets_iff. cbn. rewrite lookup_delete_eq. by intros [? ?].
  - unfold LSDB._load. cbn. by rewrite lookup_delete_eq.
  - intros b' Hne.
    assert (LSDB._key prefix b <> LSDB._key prefix b') as Hk
      by (intros H; apply Hne; symmetry; by apply key_inj).
    split.
    + unfold LSDB._load. cbn. by rewrite lookup_delete_ne.
    + rewrite !listBuckets_iff. cbn. by rewrite lookup_delete_ne.
  - unfold LSDB.deleteBucket. cbn. f_equal. apply delete_delete_eq.
Qed.


Lemma filter_none {A} (p : A -> bool) l :
  (forall x, x ∈ l -> p x = true) -> List.filter p l = l.
Proof.
  intros H. apply forallb_filter_id, forallb_forall.
  intros x Hx. by apply H, list_elem_of_In.
Qed.

Lemma load_save b data w : LSDB._load prefix b (LSDB._save prefix b data w) = data.
Proof. unfold LSDB._load. cbn. by rewrite lookup_insert_eq. Qed.

Lemma load_save_ne b b' data w :
  b' <> b ->
  LSDB._load prefix b' (LSDB._save prefix b data w) = LSDB._load prefix b' w.
Proof.
  intros Hne. unfold LSDB._load. cbn. rewrite lookup_insert_ne; [done|].
  intros H. apply Hne. symmetry. by apply key_inj.
Qed.

(** X4.  [bucket(b).delete(id)] returns true whether or not a document has
    that id; it keeps, in order, exactly the documents whose id is not
    strictly equal to [id], leaves the other buckets as they are, and a
    second delete of the same id changes nothing more. *)
Theorem delete_removes_matching (b : string) (id : value) (w : world) :
  let acc := fst (LSDB.bucket uuid prefix b w) in
  let w1 := snd (LSDB.bucket uuid prefix b w) in
  let w2 := snd (LSDB.delete acc id w1) in
  fst (LSDB.delete acc id w1) = true /\
  LSDB._load prefix b w2 =
    List.filter (fun x => negb (strict_eq (LSDB.id_of x) id)) (LSDB._load prefix b w) /\
  (forall x, x ∈ LSDB._load prefix b w2 -> strict_eq (LSDB.id_of x) id = false) /\
  (forall b', b' <> b -> LSDB._load prefix b' w2 = LSDB._load prefix b' w) /\
  LSDB._load prefix b (snd (LSDB.delete acc id w2)) = LSDB._load prefix b w2.
Proof.
  intros acc w1 w2.
  assert (LSDB._load prefix b w2 =
          List.filter (fun x => negb (strict_eq (LSDB.id_of x) id))
            (LSDB._load prefix b w)) as Hload.
  { subst w2 w1 acc. cbn. by rewrite load_save, load_ensure. }
  assert (forall x, x ∈ LSDB._load prefix b w2 ->
                    strict_eq (LSDB.id_of x) id = false) as Hgone.
  { intros x Hx. rewrite Hload in Hx.
    apply list_elem_of_In, filter_In in Hx as [_ Hx].
    by apply negb_true_iff. }
  split; [reflexivity|]. split; [exact Hload|]. split; [exact Hgone|]. split.
  - intros b' Hne. subst w2 w1 acc. cbn.
    rewrite load_save_ne by done. apply load_ensure_any.
  - subst acc. cbn [LSDB.bucket fst snd LSDB.delete]. rewrite load_save.
    apply filter_none. intros x Hx. by rewrite (Hgone x Hx).
Qed.

(** X5.  A document inserted without an id is appended to its bucket with
    all its fields and the next identifier; if no stored document already
    has that identifier, deleting the returned id gives the bucket the
    documents it had before the insert. *)
Theorem insert_then_delete_restores (b : string) (item : doc) (w : world) :
  item !! "id" = None ->
  (forall x, x ∈ LSDB._load prefix b w ->
     strict_eq (LSDB.id_of x) (Val (JStr (uuid (uuid_count w)))) = false) ->
  let acc := fst (LSDB.bucket uuid prefix b w) in
  let w1 := snd (LSDB.bucket uuid prefix b w) in
  let newItem := fst (LSDB.insert acc item w1) in
  let w2 := snd (LSDB.insert acc item w1) in
  LSDB._load prefix b w2 = (LSDB._load prefix b w ++ [newItem])%list /\
  LSDB.id_of newItem = Val (JStr (uuid (uuid_count w))) /\
  (forall k v, item !! k = Some v -> newItem !! k = Some v) /\
  LSDB._load prefix b (snd (LSDB.delete acc (LSDB.id_of newItem) w2))
    = LSDB._load prefix b w.
Proof.
  intros Hid Hfresh acc w1 newItem w2.
  assert (LSDB.id_of newItem = Val (JStr (uuid (uuid_count w)))) as Hnew.
  { subst newItem acc w1. cbn. rewrite ensure_count. unfold LSDB.id_of.
    by rewrite (lookup_union_r item _ "id" Hid), lookup_singleton_eq. }
  assert (LSDB._load prefix b w2 = (LSDB._load prefix b w ++ [newItem])%list)
    as Hload.
  { subst w2 newItem acc w1. cbn. by rewrite load_save, load_ensure. }
  split; [exact Hload|]. split; [exact Hnew|]. split.
  - intros k v Hk. subst newItem acc. cbn. by apply lookup_union_Some_l.
  - subst acc. cbn [LSDB.bucket fst snd LSDB.delete]. rewrite load_save, Hload.
    rewrite List.filter_app. cbn [List.filter]. rewrite Hnew.
    rewrite filter_none.
    + cbn. rewrite String.eqb_refl. cbn. apply app_nil_r.
    + intros x Hx. by rewrite (Hfresh x Hx).
Qed.
End MoreBuckets.

Section ImportAppend.
Variable uuid : nat -> string.
Import Spec.

(** X18.  Importing the dump of a bucket with [overwrite = false] appends
    the dumped documents to those stored: the bucket then holds each of
    its documents twice, under the same id; other buckets are untouched.
    The bucket named ["__proto__"] is the exception: its dump has no entry
    (see [assign]), and the import leaves it as it is. *)
Theorem import_without_overwrite_appends (b : string) (w : world) :
  b <> "" ->
  documents_have_id LSDBUtil.prefix w ->
  let snapshot := fst (LSDBUtil.dump uuid (Some b) w) in
  let w1 := snd (LSDBUtil.dump uuid (Some b) w) in
  let w2 := LSDBUtil.import uuid snapshot false w1 in
  LSDB._load LSDBUtil.prefix b w2 =
    (if String.eqb b "__proto__" then LSDB._load LSDBUtil.prefix b w
     else LSDB._load LSDBUtil.prefix b w ++ LSDB._load LSDBUtil.prefix b w)%list /\
  (forall b', b' <> b ->
     LSDB._load LSDBUtil.prefix b' w2 = LSDB._load LSDBUtil.prefix b' w).
Proof.
  intros Hb Hids snapshot w1 w2.
  assert (String.eqb b "" = false) as Hb' by (by apply String.eqb_neq).
  assert (snapshot =
            Text (assign b (LSDB._load LSDBUtil.prefix b w) ∅) /\
          w1 = LSDB._ensure LSDBUtil.prefix b w) as [Hsnap Hw1].
  { subst snapshot w1. unfold LSDBUtil.dump. rewrite Hb'.
    cbn [LSDBUtil.dump_loop foldl].
    change (LSDBUtil.lsdbInstance_bucket uuid b w)
      with (LSDB.bucket uuid LSDBUtil.prefix b w).
    cbn [LSDB.bucket fst snd LSDB.all LSQuery.toList].
    by rewrite load_ensure. }
  unfold assign in Hsnap.
  destruct (String.eqb b "__proto__") eqn:Hproto.
  { assert (w2 = w1) as -> by (subst w2; by rewrite Hsnap).
    rewrite Hw1. split; [|intros b' _];
      apply (load_ensure_any LSDBUtil.prefix). }
  rewrite insert_empty in Hsnap.
  assert (localStorage w2 =
          <[LSDB._key LSDBUtil.prefix b :=
              (LSDB._load LSDBUtil.prefix b w ++ LSDB._load LSDBUtil.prefix b w)%list]>
            (localStorage w1)) as Hstore.
  { subst w2. rewrite Hsnap. unfold LSDBUtil.import.
    rewrite map_to_list_singleton. cbn [foldl]. unfold LSDBUtil.import_bucket.
    rewrite bool_decide_eq_true_2
      by (rewrite Hw1; apply listBuckets_lookup; rewrite lookup_ensure; eauto).
    apply insert_loop.
    - rewrite Hw1. apply lookup_ensure.
    - intros d Hd. by apply (have_id_load b w). }
  split.
  - unfold LSDB._load at 1. by rewrite Hstore, lookup_insert_eq.
  - intros b' Hne. unfold LSDB._load at 1. rewrite Hstore.
    rewrite lookup_insert_ne
      by (intros H; apply Hne; symmetry; by apply (key_inj LSDBUtil.prefix)).
    rewrite Hw1. apply (load_ensure_any LSDBUtil.prefix b b' w).
Qed.
End ImportAppend.

Section MoreQuery.
Context {A : Type}.

Lemma array_filter_mem (p : A -> result bool) l l' x :
  array_filter p l = Ok l' -> x ∈ l' -> x ∈ l /\ p x = Ok true.
Proof.
  revert l'. induction l as [|a l IH]; intros l'; cbn.
  - intros [= <-] Hx. by apply elem_of_nil in Hx.
  - destruct (p a) as [b|e] eqn:Ha; cbn; [|discriminate].
    destruct (array_filter p l) as [r|e]; cbn; [|discriminate].
    intros [= <-] Hx. destruct b.
    + apply elem_of_cons in Hx as [->|Hx].
      * split; [left | done].
      * destruct (IH r eq_refl Hx). split; [by right | done].
    + destruct (IH r eq_refl Hx). split; [by right | done].
Qed.

(** X6.  Two [where] in a row select what one [where] with the conjunction
    of the predicates selects, the second predicate being evaluated only
    where the first one holds. *)
Theorem where_where (p q : A -> result bool) (data l1 l2 : list A) :
  LSQuery.where_ p data = Ok l1 ->
  LSQuery.where_ q l1 = Ok l2 ->
  LSQuery.where_ (fun x => try a <- p x in if a then q x else Ok false) data
    = Ok l2.
Proof.
  unfold LSQuery.where_. revert l1 l2.
  induction data as [|x data IH]; intros l1 l2; cbn.
  - intros [= <-]. cbn. congruence.
  - destruct (p x) as [b|e] eqn:Hx; cbn; [|discriminate].
    destruct (array_filter p data) as [r|e] eqn:Hr; cbn; [|discriminate].
    intros [= <-]. destruct b; cbn.
    + destruct (q x) as [c|e]; cbn; [|discriminate].
      destruct (array_filter q r) as [r'|e] eqn:Hr'; cbn; [|discriminate].
      intros [= <-]. by rewrite (IH r r' eq_refl Hr').
    + intros H2. by rewrite (IH r l2 eq_refl H2).
Qed.
End MoreQuery.

Section SortTwice.
Import ByKey.
Context {A K : Type} (key : A -> K) (lt : K -> K -> bool).

Lemma array_sort_sorted_id l :
  StronglySorted (le key lt) l -> array_sort (by_key key lt) l = l.
Proof.
  induction 1 as [|x l Hs IH Hall]; [done|].
  cbn [array_sort foldr]. fold (array_sort (by_key key lt) l). rewrite IH.
  destruct l as [|y l]; [done|]. cbn.
  apply Forall_inv in Hall. unfold le in Hall.
  by rewrite by_key_pos, Hall.
Qed.
End SortTwice.

Section OrderTwice.
Import Spec ByKey.
Context {A : Type} (selector : A -> value) (data : list A).

(** X7.  On comparable keys, ordering an ordered sequence again by the same
    selector returns it unchanged, for [orderBy] and for
    [orderByDescending]. *)
Theorem orderBy_twice :
  comparable_keys selector data ->
  LSQuery.orderBy selector (LSQuery.orderBy selector data)
    = LSQuery.orderBy selector data /\
  LSQuery.orderByDescending selector (LSQuery.orderByDescending selector data)
    = LSQuery.orderByDescending selector data.
Proof.
  intros Hcmp.
  assert (forall (K : Type) (inj : K -> value) (key : A -> K) (lt : K -> K -> bool),
             (forall a, a ∈ data -> selector a = inj (key a)) ->
             (forall k1 k2, js_lt (inj k1) (inj k2) = lt k1 k2) ->
             (forall a b, lt a b = true -> lt b a = false) ->
             (forall a b, lt a b = false -> lt b a = false -> a = b) ->
             (forall a b c, lt a b = true -> lt b c = true -> lt a c = true) ->
             LSQuery.orderBy selector (LSQuery.orderBy selector data)
               = LSQuery.orderBy selector data /\
             LSQuery.orderByDescending selector
               (LSQuery.orderByDescending selector data)
               = LSQuery.orderByDescending selector data) as Hgen.
  { intros K inj key lt Hkey Hlt Hasym Htotal Htrans.
    set (gt := fun a b : K => lt b a).
    assert (forall l, (forall a, a ∈ l -> a ∈ data) ->
              array_sort (LSQuery.ascending selector) l
              = array_sort (by_key key lt) l) as Hasc.
    { intros l Hl. apply array_sort_ext. intros a b Ha Hb.
      unfold LSQuery.ascending, by_key, js_gt.
      fold (js_lt (selector b) (selector a)).
      by rewrite (Hkey a (Hl a Ha)), (Hkey b (Hl b Hb)), !Hlt. }
    assert (forall l, (forall a, a ∈ l -> a ∈ data) ->
              array_sort (LSQuery.descending selector) l
              = array_sort (by_key key gt) l) as Hdesc.
    { intros l Hl. apply array_sort_ext. intros a b Ha Hb.
      unfold LSQuery.descending, by_key, js_gt, gt.
      fold (js_lt (selector b) (selector a)).
      by rewrite (Hkey a (Hl a Ha)), (Hkey b (Hl b Hb)), !Hlt. }
    unfold LSQuery.orderBy, LSQuery.orderByDescending. split.
    - rewrite (Hasc data) by done.
      rewrite Hasc by (intros a Ha; by rewrite (array_sort_perm (by_key key lt) data)).
      apply array_sort_sorted_id. by apply array_sort_sorted.
    - rewrite (Hdesc data) by done.
      rewrite Hdesc by (intros a Ha; by rewrite (array_sort_perm (by_key key gt) data)).
      apply array_sort_sorted_id. apply array_sort_sorted.
      + intros a b. apply Hasym.
      + intros a b H1 H2. by apply Htotal.
      + intros a b c H1 H2. by apply (Htrans c b a). }
  destruct Hcmp as [Hnum | Hstr].
  - apply (Hgen Z (fun z => Val (JNum z))
             (fun a => match selector a with Val (JNum z) => z | _ => 0%Z end)
             Z.ltb).
    + intros a [z Hz]%Hnum. by rewrite Hz.
    + apply js_lt_numbers.
    + apply Z_ltb_asym.
    + apply Z_ltb_total.
    + apply Z_ltb_trans.
  - apply (Hgen string (fun z => Val (JStr z))
             (fun a => match selector a with Val (JStr z) => z | _ => "" end)
             String.ltb).
    + intros a [z Hz]%Hstr. by rewrite Hz.
    + apply js_lt_strings.
    + apply string_ltb_asym.
    + apply string_ltb_total.
    + apply string_ltb_trans.
Qed.
End OrderTwice.

Section First.
Import LSQueryData SpecMore.

Lemma array_find_total (q : json -> bool) l :
  array_find (fun x => Ok (q x)) l = Ok (List.find q l).
Proof.
  induction l as [|x l IH]; [done|]. cbn. by destruct (q x).
Qed.

(** X8.  On data without falsy elements (documents, say), [firstOrDefault]
    without predicate returns the first element, or null for no data; with
    a predicate it returns the first element satisfying it, and null
    exactly when no element does. *)
Theorem firstOrDefault_first_match (q : json -> bool) (data : list json) :
  (forall x, x ∈ data -> truthy x) ->
  firstOrDefault None data = Ok (default JNull (head data)) /\
  firstOrDefault (Some (fun x => Ok (q x))) data
    = Ok (default JNull (List.find q data)) /\
  (firstOrDefault (Some (fun x => Ok (q x))) data = Ok JNull <->
   forall x, x ∈ data -> q x = false).
Proof.
  intros Htruthy.
  assert (forall x, x ∈ data -> or_null (Some x) = x) as Hor.
  { intros x Hx. unfold or_null. by rewrite (Htruthy x Hx). }
  assert (firstOrDefault (Some (fun x => Ok (q x))) data
          = Ok (default JNull (List.find q data))) as Hfind.
  { unfold firstOrDefault. rewrite array_find_total. cbn [bind].
    destruct (List.find q data) as [x|] eqn:E; [|done].
    apply find_some in E as [Hx _]. by rewrite Hor by by apply list_elem_of_In. }
  split; [|split; [exact Hfind|]].
  - unfold firstOrDefault. destruct data as [|x data]; [done|].
    change (head (x :: data)) with (Some x). by rewrite Hor by left.
  - rewrite Hfind. split.
    + intros [= H] x Hx. destruct (List.find q data) as [y|] eqn:E.
      * apply find_some in E as [Hy _]. apply list_elem_of_In in Hy.
        cbn in H. subst y. by pose proof (Htruthy _ Hy).
      * by apply (find_none _ _ E), list_elem_of_In.
    + intros Hnone. destruct (List.find q data) as [y|] eqn:E; [|done].
      apply find_some in E as [Hy Hq]. apply list_elem_of_In in Hy.
      by rewrite (Hnone y Hy) in Hq.
Qed.
End First.

Section MoreExecute.
Import LSDBQuery Spec.

Lemma array_filter_ext {A} (p p' : A -> result bool) l :
  (forall x, x ∈ l -> p x = p' x) -> array_filter p l = array_filter p' l.
Proof.
  induction l as [|x l IH]; intros H; [done|]. cbn.
  rewrite (H x) by left. rewrite IH; [done|]. intros y Hy. apply H. by right.
Qed.

Lemma array_filter_all {A} (l : list A) :
  array_filter (fun _ => Ok true) l = Ok l.
Proof. induction l as [|x l IH]; [done|]. cbn. by rewrite IH. Qed.

Lemma bind_bool (r : result bool) :
  (try b <- r in if b then Ok true else Ok false) = r.
Proof. by destruct r as [[]|]. Qed.

Lemma array_every_snoc {A} (p : A -> result bool) l x :
  array_every p (l ++ [x]) =
  (try a <- array_every p l in if a then p x else Ok false).
Proof.
  induction l as [|y l IH]; cbn.
  - by rewrite bind_bool; destruct (p x) as [[]|].
  - destruct (p y) as [[]|e]; cbn; [exact IH | done | done].
Qed.

(** X9.  A query without predicates returns every document of its bucket,
    and leaves the bucket created. *)
Theorem execute_without_predicates (uuid : nat -> string) (b : string) (w : world) :
  execute uuid (new b) w =
  (Ok (LSDB._load LSDBUtil.prefix b w), LSDB._ensure LSDBUtil.prefix b w).
Proof.
  unfold execute, LSDBUtil.lsdbInstance_bucket, LSDB.bucket. cbn.
  rewrite load_ensure. unfold LSQuery.where_, LSQuery.toList.
  rewrite (array_filter_ext _ (fun _ => Ok true)) by done.
  by rewrite array_filter_all.
Qed.

Lemma keep_orWhere prop op v q item :
  orGroups q = [] ->
  keep (orWhere prop op v q) item = keep (where_ prop op v q) item.
Proof.
  intros Hq. unfold keep, _matchesAnd, _matchesOr. cbn. rewrite Hq. cbn.
  rewrite array_every_snoc.
  destruct (array_every (test (Val (JObj item))) (filters q)) as [[]|e];
    cbn; [|done..].
  by destruct (test (Val (JObj item)) (Filter prop op v)) as [[]|e].
Qed.

(** X10.  On a query without OR-groups, [orWhere] is [where]: the predicate
    is required, not offered as an alternative to the AND predicates. *)
Theorem orWhere_alone_is_where (uuid : nat -> string) (prop op : string)
    (v : value) (q : t) (w : world) :
  orGroups q = [] ->
  execute uuid (orWhere prop op v q) w = execute uuid (where_ prop op v q) w.
Proof.
  intros Hq. unfold execute. cbn.
  unfold LSQuery.where_.
  rewrite (array_filter_ext (keep (orWhere prop op v q))
             (keep (where_ prop op v q))); [done|].
  intros item _. by apply keep_orWhere.
Qed.

Lemma selects_where prop op v q item :
  selects (where_ prop op v q) item
  = selects q item && matches item (Filter prop op v).
Proof.
  unfold selects. cbn. rewrite forallb_app. cbn.
  destruct (forallb (matches item) (filters q)),
           (matches item (Filter prop op v)),
           (match orGroups q with [] => true | _ => _ end); reflexivity.
Qed.

Lemma filter_filter_andb {A} (p q : A -> bool) l :
  List.filter (fun x => p x && q x) l = List.filter q (List.filter p l).
Proof.
  induction l as [|x l IH]; [done|]. cbn.
  destruct (p x); cbn; [|exact IH]. destruct (q x); by rewrite IH.
Qed.

(** X11.  Adding a [where] narrows the result: what the extended query
    returns is what the query returned, filtered by the added predicate. *)
Theorem where_narrows (uuid : nat -> string) (prop op : string) (v : value)
    (q : t) (w : world) (narrow wide : list doc) :
  fst (execute uuid q w) = Ok wide ->
  fst (execute uuid (where_ prop op v q) w) = Ok narrow ->
  narrow = List.filter (fun item => matches item (Filter prop op v)) wide.
Proof.
  rewrite !execute_unfold. cbn [bucket where_].
  intros Hwide Hnarrow.
  apply (array_filter_sound _ (selects q)) in Hwide; [|apply keep_sound].
  apply (array_filter_sound _ (selects (where_ prop op v q))) in Hnarrow;
    [|apply keep_sound].
  subst. rewrite <- filter_filter_andb.
  apply filter_ext. intros item. apply selects_where.
Qed.

Lemma loose_eq_null v :
  loose_eq v (Val JNull) = true <-> v = Undefined \/ v = Val JNull.
Proof.
  split.
  - destruct v as [|[| [] | | | |]]; cbn; try discriminate; auto.
  - by intros [-> | ->].
Qed.

(** X12.  The predicate [eq null] holds exactly of the undefined sentinel
    and of null: on a document whose path resolves to nothing, [eq null]
    matches and [neq null] does not. *)
Theorem eq_null_matches_missing :
  (forall v, _compare v "eq" (Val JNull) = true <->
             v = Undefined \/ v = Val JNull) /\
  (forall obj prop,
      _getNestedValue obj prop = Ok Undefined ->
      test obj (Filter prop "eq" (Val JNull)) = Ok true /\
      test obj (Filter prop "neq" (Val JNull)) = Ok false).
Proof.
  split; [intros v; apply loose_eq_null|].
  intros obj prop H. unfold test. cbn [LSDBQuery.prop LSDBQuery.op LSDBQuery.value_].
  by rewrite H.
Qed.
End MoreExecute.

Section MoreIDb.
Import IDb IDbMore SpecMore.

Lemma to_key_of_key k : to_key (Val (of_key k)) = Some k.
Proof. by destruct k. Qed.

Lemma extract_key_id (data : doc) k :
  data !! "id" = Some (of_key k) -> extract_key data = Ok (Some k).
Proof. intros H. unfold extract_key. by rewrite H, to_key_of_key. Qed.

Lemma extract_key_none (data : doc) :
  data !! "id" = None -> extract_key data = Ok None.
Proof. intros H. unfold extract_key. by rewrite H. Qed.

Lemma get_stored bucket (db : database) store k :
  db !! bucket = Some store ->
  get bucket (Val (of_key k)) db = Ok (of_option (JObj <$> records store !! k)).
Proof.
  intros H. unfold get, getStore. rewrite H. cbn [bind].
  by rewrite to_key_of_key.
Qed.

(** X13.  [createData] on an existing bucket hands the callback the stored
    record: with the generated key written to its id when the data had
    none, as it is when its id was free.  When a record with that id is
    stored, nothing is stored and the callback is not called. *)
Theorem createData_returns_record (bucket : string) (data : doc)
    (db : database) (store : objectStore) :
  db !! bucket = Some store ->
  (data !! "id" = None ->
   records store !! KNum (generator store) = None ->
   fst (IDbUtil.createData bucket data db)
     = Some (Val (JObj (<["id" := JNum (generator store)]> data))) /\
   get bucket (Val (JNum (generator store))) (snd (IDbUtil.createData bucket data db))
     = Ok (Val (JObj (<["id" := JNum (generator store)]> data)))) /\
  (forall k, data !! "id" = Some (of_key k) ->
     records store !! k = None ->
     fst (IDbUtil.createData bucket data db) = Some (Val (JObj data)) /\
     get bucket (Val (of_key k)) (snd (IDbUtil.createData bucket data db))
       = Ok (Val (JObj data))) /\
  (forall k, data !! "id" = Some (of_key k) ->
     is_Some (records store !! k) ->
     IDbUtil.createData bucket data db = (None, db)).
Proof.
  intros Hstore. split; [|split].
  - intros Hid _. unfold IDbUtil.createData, insert. rewrite Hstore.
    unfold store_record. rewrite (extract_key_none _ Hid). cbn [bind fst snd].
    match goal with |- IDbUtil.caught ?g = _ /\ _ =>
      assert (g = Ok (Val (JObj (<["id" := JNum (generator store)]> data)))) as Hget
    end.
    { rewrite (get_stored bucket _ _ (KNum (generator store))
                 (lookup_insert_eq _ _ _)).
      cbn. by rewrite lookup_insert_eq. }
    split; [by rewrite Hget | exact Hget].
  - intros k Hid Hfree. unfold IDbUtil.createData, insert. rewrite Hstore.
    unfold store_record. rewrite (extract_key_id _ _ Hid). cbn [bind].
    rewrite Hfree. rewrite bool_decide_eq_false_2 by (by intros [? ?]).
    cbn [andb fst snd].
    rewrite (get_stored bucket _ _ k (lookup_insert_eq _ _ _)).
    cbn. by rewrite lookup_insert_eq.
  - intros k Hid Htaken. unfold IDbUtil.createData, insert. rewrite Hstore.
    unfold store_record. rewrite (extract_key_id _ _ Hid). cbn [bind].
    by rewrite bool_decide_eq_true_2.
Qed.

(** X14.  [deleteData] with a valid key calls back with true whether or not
    the record exists; afterwards the key has no record, the other keys
    have theirs; deleting an absent key changes no record, and deleting
    again changes nothing. *)
Theorem deleteData_removes (bucket : string) (id : value) (db : database)
    (store : objectStore) (k : key) :
  db !! bucket = Some store ->
  to_key id = Some k ->
  let db' := snd (IDbUtil.deleteData bucket id db) in
  fst (IDbUtil.deleteData bucket id db) = Some true /\
  get bucket id db' = Ok Undefined /\
  (forall k' : key, k' <> k ->
     get bucket (Val (of_key k')) db' = get bucket (Val (of_key k')) db) /\
  (records store !! k = None ->
   records <$> db' = records <$> db) /\
  snd (IDbUtil.deleteData bucket id db') = db'.
Proof.
  intros Hstore Hk db'.
  assert (db' = <[bucket := delete_record k store]> db) as Hdb'.
  { subst db'. unfold IDbUtil.deleteData, delete, getStore.
    by rewrite Hstore, Hk. }
  split; [|split; [|split; [|split]]].
  - unfold IDbUtil.deleteData, delete, getStore. by rewrite Hstore, Hk.
  - rewrite Hdb'. unfold get, getStore. rewrite lookup_insert_eq. cbn [bind].
    rewrite Hk. cbn. by rewrite lookup_delete_eq.
  - intros k' Hne. rewrite Hdb'.
    rewrite (get_stored bucket _ _ k' (lookup_insert_eq _ _ _)).
    rewrite (get_stored bucket _ _ k' Hstore). cbn.
    by rewrite lookup_delete_ne.
  - intros Hnone. rewrite Hdb', fmap_insert. cbn.
    rewrite (delete_id _ _ Hnone). apply insert_id.
    by rewrite lookup_fmap, Hstore.
  - rewrite Hdb'. unfold IDbUtil.deleteData, delete, getStore.
    rewrite lookup_insert_eq, Hk. cbn. rewrite insert_insert_eq.
    unfold delete_record. cbn. by rewrite delete_delete_eq.
Qed.

(** X15.  [getMany] of IDbUtil hands its callback exactly what [filter] of
    IDb resolves with, for every filter object, and calls nothing back
    where [filter] is rejected. *)
Theorem getMany_is_filter (bucket : string) (filterObj : gmap string value)
    (db : database) :
  IDbUtil.getMany bucket filterObj db
  = IDbUtil.caught (filter bucket filterObj db).
Proof.
  unfold IDbUtil.getMany, filter.
  destruct (getAll bucket db) as [results|e]; [|done]. cbn [bind].
  destruct (map_to_list filterObj) as [|kv kvs] eqn:E; [|done].
  cbn. by rewrite filter_true.
Qed.

(** X16.  [updateData] calls back with the record when the record carries
    an id.  For a record without id the record is stored under a generated
    key, but the callback is never called: the id is looked up on the
    caller's object, which has none. *)
Theorem updateData_needs_id (bucket : string) (data : doc) (db : database)
    (store : objectStore) :
  db !! bucket = Some store ->
  (forall k, data !! "id" = Some (of_key k) ->
     fst (IDbUtil.updateData bucket data db) = Some (Val (JObj data))) /\
  (data !! "id" = None ->
   fst (IDbUtil.updateData bucket data db) = None /\
   get bucket (Val (JNum (generator store))) (snd (IDbUtil.updateData bucket data db))
     = Ok (Val (JObj (<["id" := JNum (generator store)]> data)))).
Proof.
  intros Hstore. split.
  - intros k Hid. unfold IDbUtil.updateData, update, getStore. rewrite Hstore.
    unfold store_record. rewrite (extract_key_id _ _ Hid). cbn [bind fst snd].
    rewrite Hid. change (of_option (Some (of_key k))) with (Val (of_key k)).
    cbn [andb fst snd]. rewrite (get_stored bucket _ _ k (lookup_insert_eq _ _ _)).
    cbn. by rewrite lookup_insert_eq.
  - intros Hid. unfold IDbUtil.updateData, update, getStore. rewrite Hstore.
    unfold store_record. rewrite (extract_key_none _ Hid). cbn [bind fst snd].
    rewrite Hid. change (of_option None) with Undefined. split.
    + unfold get, getStore. by rewrite lookup_insert_eq.
    + rewrite (get_stored bucket _ _ (KNum (generator store))
                 (lookup_insert_eq _ _ _)).
      cbn. by rewrite lookup_insert_eq.
Qed.
End MoreIDb.

Section IDbRoundTrip.
Import IDb IDbMore SpecMore.

Lemma all_records_stored (s : objectStore) (item : doc) :
  item ∈ all_records s -> exists k, records s !! k = Some item.
Proof.
  unfold all_records. intros H.
  apply list_elem_of_In, in_map_iff in H as ([k d] & Hd & Hin). cbn in Hd. subst d.
  apply list_elem_of_In in Hin. rewrite merge_sort_Permutation in Hin.
  apply elem_of_map_to_list in Hin. eauto.
Qed.

Lemma put_all_stored (items : list doc) (s : objectStore) :
  (forall item, item ∈ items ->
     exists k, records s !! k = Some item /\ item !! "id" = Some (of_key k)) ->
  exists s', put_all items s = (None, s') /\ records s' = records s.
Proof.
  revert s. induction items as [|item items IH]; intros s H; [by exists s|].
  destruct (H item ltac:(left)) as (k & Hk & Hid).
  cbn. unfold store_record, extract_key. rewrite Hid.
  assert (to_key (Val (of_key k)) = Some k) as -> by (by destruct k).
  cbn.
  set (s1 := ObjectStore (<[k := item]> (records s)) (bump k (generator s))).
  assert (records s1 = records s) as Hs1 by (cbn; by apply insert_id).
  destruct (IH s1) as (s' & Hput & Hrec).
  - intros item' Hin. rewrite Hs1. apply H. by right.
  - exists s'. split; [exact Hput | congruence].
Qed.

Lemma dump_loop_entries buckets acc (db : database) obj :
  dump_loop buckets acc db = Ok obj ->
  forall b items, obj !! b = Some items ->
    acc !! b = Some items \/
    (b ∈ buckets /\
     exists store, db !! b = Some store /\ items = all_records store).
Proof.
  revert acc. induction buckets as [|b0 buckets IH]; intros acc; cbn.
  - intros [= <-] b items Hb. by left.
  - unfold getAll, getStore.
    destruct (db !! b0) as [store|] eqn:Hstore; cbn; [|discriminate].
    intros Hloop b items Hb.
    destruct (IH _ Hloop b items Hb) as [Hacc | [Hin Hst]].
    + unfold assign in Hacc.
      destruct (String.eqb b0 "__proto__"); [by left|].
      apply lookup_insert_Some in Hacc as [[<- <-] | [_ Hacc]]; [right|by left].
      split; [left | eauto].
    + right. split; [by right | done].
Qed.

(** The loop writes no entry under ["__proto__"]. *)
Lemma dump_loop_proto buckets acc (db : database) obj :
  dump_loop buckets acc db = Ok obj -> obj !! "__proto__" = acc !! "__proto__".
Proof.
  revert acc. induction buckets as [|b0 buckets IH]; intros acc; cbn.
  - by intros [= <-].
  - destruct (getAll b0 db) as [all|e]; cbn; [|discriminate].
    intros Hloop. rewrite (IH _ Hloop). unfold assign.
    destruct (String.eqb_spec b0 "__proto__") as [->|Hne]; [done|].
    by rewrite lookup_insert_ne.
Qed.

(** Under any other name it holds what [getAll] returned for each bucket
    asked for, and what it held before for the others. *)
Lemma dump_loop_lookup buckets acc (db : database) obj b :
  dump_loop buckets acc db = Ok obj -> b <> "__proto__" ->
  obj !! b =
    if decide (b ∈ buckets) then all_records <$> (db !! b) else acc !! b.
Proof.
  intros Hloop Hb. revert acc Hloop.
  induction buckets as [|b0 buckets IH]; intros acc; cbn [dump_loop].
  - intros [= <-]. by rewrite decide_False by apply not_elem_of_nil.
  - unfold getAll, getStore.
    destruct (db !! b0) as [store|] eqn:Hstore; cbn; [|discriminate].
    intros Hloop. rewrite (IH _ Hloop).
    destruct (decide (b ∈ buckets)) as [Hin|Hnin].
    + rewrite decide_True; [done | by right].
    + unfold assign. destruct (decide (b = b0)) as [->|Hne].
      * rewrite decide_True by left.
        rewrite (proj2 (String.eqb_neq _ _) Hb).
        by rewrite lookup_insert_eq, Hstore.
      * rewrite decide_False by (rewrite elem_of_cons; tauto).
        destruct (String.eqb b0 "__proto__"); [done|].
        by rewrite lookup_insert_ne.
Qed.

Lemma dump_loop_total buckets acc (db : database) :
  (forall b, b ∈ buckets -> is_Some (db !! b)) ->
  is_ok (dump_loop buckets acc db) = true.
Proof.
  revert acc. induction buckets as [|b0 buckets IH]; intros acc H; [done|].
  cbn. unfold getAll, getStore.
  destruct (H b0 ltac:(left)) as [store ->]. cbn.
  apply IH. intros b Hb. apply H. by right.
Qed.

Lemma import_loop_stored entries (db0 db : database) :
  (forall b store, db0 !! b = Some store -> keyed_by_id store) ->
  (forall b items, (b, items) ∈ entries ->
     exists store, db0 !! b = Some store /\ items = all_records store) ->
  records <$> db = records <$> db0 ->
  fst (import_loop entries db) = Ok tt /\
  records <$> snd (import_loop entries db) = records <$> db0.
Proof.
  intros Hkeyed. revert db.
  induction entries as [|[b items] entries IH]; intros db Hentries Hrec; [done|].
  cbn [import_loop].
  destruct (Hentries b items ltac:(left)) as (store0 & Hstore0 & ->).
  assert (exists s, db !! b = Some s /\ records s = records store0)
    as (s & Hs & Hrs).
  { pose proof (f_equal (fun m => m !! b) Hrec) as H. cbn in H.
    rewrite !lookup_fmap, Hstore0 in H.
    destruct (db !! b) as [s|]; [|discriminate]. exists s. split; [done|].
    by injection H. }
  unfold getStore. rewrite Hs.
  destruct (put_all_stored (all_records store0) s) as (s' & Hput & Hrs').
  { intros item (k & Hk)%all_records_stored. exists k.
    split; [by rewrite Hrs | by apply (Hkeyed b store0 Hstore0)]. }
  rewrite Hput. apply IH.
  - intros b' items' Hin. apply Hentries. by right.
  - rewrite fmap_insert, Hrec, Hrs', Hrs. apply insert_id.
    by rewrite lookup_fmap, Hstore0.
Qed.

(** X17.  For buckets that exist, [dump] succeeds.  The dump has an entry
    for every bucket asked for, the one named ["__proto__"] apart (see
    [assign]), and no other entry; the entry of a bucket is what [getAll]
    returns for it.  Importing that dump into the same database succeeds
    and leaves every record as it was. *)
Theorem dump_import_keeps_records (buckets : list string) (db : database) :
  (forall b store, db !! b = Some store -> keyed_by_id store) ->
  (forall b, b ∈ buckets -> is_Some (db !! b)) ->
  exists obj,
    dump buckets db = Ok (Text obj) /\
    (forall b, b ∈ buckets -> b <> "__proto__" ->
       exists items, obj !! b = Some items /\ getAll b db = Ok items) /\
    (forall b items, obj !! b = Some items ->
       b ∈ buckets /\ b <> "__proto__" /\ getAll b db = Ok items) /\
    fst (import obj db) = Ok tt /\
    records <$> snd (import obj db) = records <$> db /\
    (forall b id, get b id (snd (import obj db)) = get b id db).
Proof.
  intros Hkeyed Hexist.
  pose proof (dump_loop_total buckets ∅ db Hexist) as Hok.
  destruct (dump_loop buckets ∅ db) as [obj|e] eqn:Hloop; [|discriminate].
  exists obj. unfold dump. rewrite Hloop. cbn [bind].
  assert (forall b items, obj !! b = Some items ->
            b ∈ buckets /\
            exists store, db !! b = Some store /\ items = all_records store)
    as Hobj.
  { intros b items Hb.
    destruct (dump_loop_entries _ _ _ _ Hloop b items Hb) as [H|H]; [|done].
    by rewrite lookup_empty in H. }
  destruct (import_loop_stored (map_to_list obj) db db Hkeyed) as [Hres Hrec];
    [|done|].
  { intros b items Hin. by apply (Hobj b items), elem_of_map_to_list. }
  split; [done|].
  split; [|split; [|split; [exact Hres|split; [exact Hrec|]]]].
  - intros b Hin Hb. destruct (Hexist b Hin) as [store Hstore].
    exists (all_records store). split.
    + rewrite (dump_loop_lookup _ _ _ _ b Hloop Hb).
      by rewrite decide_True, Hstore.
    + unfold getAll, getStore. by rewrite Hstore.
  - intros b items Hb.
    destruct (Hobj b items Hb) as (Hin & store & Hstore & ->).
    split; [done|]. split.
    + intros ->. rewrite (dump_loop_proto _ _ _ _ Hloop) in Hb.
      by rewrite lookup_empty in Hb.
    + unfold getAll, getStore. by rewrite Hstore.
  - intros b id. unfold import in Hrec. unfold get, getStore.
    pose proof (f_equal (fun m => m !! b) Hrec) as H. cbn in H.
    rewrite !lookup_fmap in H. unfold import.
    destruct (snd (import_loop (map_to_list obj) db) !! b) as [s'|],
             (db !! b) as [s|]; cbn in *; try done.
    injection H as H. by rewrite H.
Qed.
End IDbRoundTrip.

Section IDbImportMissing.
Import IDb IDbMore.

Lemma insert_existing_is_Some (db : database) b s s' b' :
  db !! b = Some s -> is_Some (<[b := s']> db !! b') <-> is_Some (db !! b').
Proof.
  intros Hs. rewrite lookup_insert_is_Some. split.
  - intros [<- | [_ H]]; [eauto | done].
  - intros H. destruct (decide (b = b')); [by left | by right].
Qed.

Lemma import_loop_buckets entries (db : database) b' :
  is_Some (snd (import_loop entries db) !! b') <-> is_Some (db !! b').
Proof.
  revert db. induction entries as [|[b items] entries IH]; intros db; [done|].
  cbn. unfold getStore. destruct (db !! b) as [s|] eqn:Hs; [|done].
  destruct (put_all items s) as [[e|] s']; cbn.
  - by apply insert_existing_is_Some with s.
  - rewrite IH. by apply insert_existing_is_Some with s.
Qed.

Lemma import_loop_missing entries (db : database) b items :
  (b, items) ∈ entries -> db !! b = None ->
  is_ok (fst (import_loop entries db)) = false.
Proof.
  revert db. induction entries as [|[b0 items0] entries IH]; intros db Hin Hb.
  - by apply elem_of_nil in Hin.
  - cbn. unfold getStore. destruct (db !! b0) as [s|] eqn:Hs; [|done].
    destruct (put_all items0 s) as [[e|] s']; [done|].
    apply elem_of_cons in Hin as [[= -> ->] | Hin]; [congruence|].
    apply IH; [done|]. rewrite lookup_insert_ne; [done | congruence].
Qed.

(** X19.  [import] of IDb never creates a bucket: the database has the
    buckets it had, and the import is rejected when the snapshot names a
    bucket the database lacks. *)
Theorem import_creates_no_bucket (obj : gmap string (list doc)) (db : database) :
  (forall b, is_Some (snd (import obj db) !! b) <-> is_Some (db !! b)) /\
  (forall b, is_Some (obj !! b) -> db !! b = None ->
     is_ok (fst (import obj db)) = false).
Proof.
  split; [intros b; apply import_loop_buckets|].
  intros b [items Hb] Hnone.
  apply (import_loop_missing _ _ b items); [|done].
  by apply elem_of_map_to_list.
Qed.
End IDbImportMissing.

Section EmptyGroup.
Import LSDBQuery.

Lemma filter_false {A} (l : list A) : List.filter (fun _ => false) l = [].
Proof. induction l as [|x l IH]; [done | exact IH]. Qed.

Lemma array_filter_none {A} (p : A -> result bool) l l' :
  (forall x b, p x = Ok b -> b = false) ->
  array_filter p l = Ok l' -> l' = [].
Proof.
  intros H Hf. rewrite (array_filter_sound p (fun _ => false) l l' H Hf).
  apply filter_false.
Qed.

(** X22.  An empty OR-group on a query without OR-groups leaves nothing to
    match: whenever [execute] returns, it returns no document. *)
Theorem empty_orGroup_matches_nothing (uuid : nat -> string) (q : t)
    (w : world) (found : list doc) :
  orGroups q = [] ->
  fst (execute uuid (orGroup [] q) w) = Ok found -> found = [].
Proof.
  intros Hq. rewrite execute_unfold. apply array_filter_none.
  intros item b. unfold keep, _matchesOr. cbn [orGroups orGroup].
  rewrite Hq. cbn [app array_some bind].
  destruct (_matchesAnd (orGroup [] q) (Val (JObj item))) as [[]|e]; cbn;
    congruence.
Qed.
End EmptyGroup.

Section ImportReplaces.
Variable uuid : nat -> string.
Import Spec.

Lemma import_entries_lookup entries w b items :
  NoDup (entries.*1) ->
  (forall b' items' (d : doc),
      (b', items') ∈ entries -> d ∈ items' -> is_Some (d !! "id")) ->
  (b, items) ∈ entries ->
  localStorage (foldl (LSDBUtil.import_bucket uuid true) w entries)
    !! LSDB._key LSDBUtil.prefix b = Some items.
Proof.
  revert w. induction entries as [|[b0 items0] entries IH]; intros w Hnd Hid Hin.
  - by apply elem_of_nil in Hin.
  - cbn [foldl]. apply NoDup_cons in Hnd as [Hnotin Hnd].
    apply elem_of_cons in Hin as [[= -> ->] | Hin].
    + clear IH.
      assert (localStorage (LSDBUtil.import_bucket uuid true w (b0, items0))
                !! LSDB._key LSDBUtil.prefix b0 = Some items0) as Hhere.
      { rewrite import_bucket_overwrite; [apply lookup_insert_eq|].
        intros d Hd. apply (Hid b0 items0 d); [left | done]. }
      revert Hhere Hnotin.
      generalize (LSDBUtil.import_bucket uuid true w (b0, items0)).
      assert (forall b' items' (d : doc),
                 (b', items') ∈ entries -> d ∈ items' -> is_Some (d !! "id"))
        as Hid' by (intros b' items' d H; apply (Hid b' items' d); by right).
      clear Hid Hnd. induction entries as [|[b1 items1] entries IH];
        intros w' Hhere Hnotin; [done|].
      cbn [foldl]. apply IH.
      * intros b' items' d H. apply (Hid' b' items' d). by right.
      * rewrite import_bucket_overwrite
          by (intros d Hd; apply (Hid' b1 items1 d); [left | done]).
        rewrite lookup_insert_ne; [done|].
        intros Heq. apply (key_inj LSDBUtil.prefix) in Heq. subst b1.
        apply Hnotin. cbn. left.
      * intros H. apply Hnotin. cbn. by right.
    + apply IH; [done | | done]. intros b' items' d H. apply (Hid b' items' d). by right.
Qed.

Lemma import_entries_other entries w key :
  (forall b' items' (d : doc),
      (b', items') ∈ entries -> d ∈ items' -> is_Some (d !! "id")) ->
  (forall b, b ∈ entries.*1 -> key <> LSDB._key LSDBUtil.prefix b) ->
  localStorage (foldl (LSDBUtil.import_bucket uuid true) w entries) !! key
    = localStorage w !! key.
Proof.
  revert w. induction entries as [|[b0 items0] entries IH]; intros w Hid Hkey;
    [done|].
  cbn [foldl]. rewrite IH.
  - rewrite import_bucket_overwrite
      by (intros d Hd; apply (Hid b0 items0 d); [left | done]).
    rewrite lookup_insert_ne; [done|]. intros H. apply (Hkey b0); [left | done].
  - intros b' items' d H. apply (Hid b' items' d). by right.
  - intros b Hb. apply Hkey. by right.
Qed.

(** X21.  [import] with [overwrite = true] of a snapshot whose documents
    carry ids leaves each bucket of the snapshot with exactly the
    snapshot's documents, whatever it held, and each other bucket as it
    was. *)
Theorem import_overwrite_replaces (data : gmap string (list doc)) (w : world) :
  (forall b items (d : doc),
      data !! b = Some items -> d ∈ items -> is_Some (d !! "id")) ->
  let w' := LSDBUtil.import uuid (Text data) true w in
  (forall b items, data !! b = Some items ->
     LSDB._load LSDBUtil.prefix b w' = items) /\
  (forall b, data !! b = None ->
     LSDB._load LSDBUtil.prefix b w' = LSDB._load LSDBUtil.prefix b w).
Proof.
  intros Hid w'.
  assert (forall b' items' (d : doc),
             (b', items') ∈ map_to_list data -> d ∈ items' -> is_Some (d !! "id"))
    as Hid'.
  { intros b' items' d Hin. apply (Hid b' items' d). by apply elem_of_map_to_list. }
  split.
  - intros b items Hb. unfold LSDB._load. subst w'. unfold LSDBUtil.import.
    rewrite (import_entries_lookup _ w b items); [done | | done |].
    + apply NoDup_fst_map_to_list.
    + by apply elem_of_map_to_list.
  - intros b Hb. unfold LSDB._load. subst w'. unfold LSDBUtil.import.
    rewrite import_entries_other; [done | done |].
    intros b' Hb' Heq. apply (key_inj LSDBUtil.prefix) in Heq. subst b'.
    apply list_elem_of_fmap in Hb' as ([b1 items1] & -> & Hin).
    apply elem_of_map_to_list in Hin. cbn in Hb. congruence.
Qed.
End ImportReplaces.

Section OneRequest.
Import IDb.

(** X20.  A transaction over an existing bucket whose callback makes one
    request leaves the database [insert], [update] or [delete] leaves for
    that request. *)
Theorem transaction_of_one_request (b : string) (data : doc) (id : value)
    (db : database) :
  is_Some (db !! b) ->
  snd (transaction [b] [Add b data] db) = snd (insert b data db) /\
  snd (transaction [b] [Put b data] db) = snd (update b data db) /\
  snd (transaction [b] [Delete b id] db) = snd (delete b id db).
Proof.
  intros [store Hstore].
  assert (bool_decide (b ∈ [b]) = true) as Hin
    by (apply bool_decide_eq_true_2; left).
  unfold transaction, insert, update, delete, getStore.
  cbn [forallb]. rewrite Hstore.
  rewrite (bool_decide_eq_true_2 (is_Some (Some store))) by eauto.
  cbn [andb run_callback]. rewrite Hin.
  split; [|split].
  - unfold store_record.
    destruct (extract_key data) as [k|e] eqn:Hk; cbn; [|done].
    unfold on_store. rewrite Hstore. unfold store_record. rewrite Hk. cbn.
    destruct k as [k|]; cbn; [|done].
    by destruct (bool_decide (is_Some (records store !! k))).
  - unfold store_record.
    destruct (extract_key data) as [k|e] eqn:Hk; cbn; [|done].
    unfold on_store. rewrite Hstore. unfold store_record. rewrite Hk. cbn.
    by destruct k as [k|].
  - destruct (to_key id) as [k|]; cbn; [|done].
    unfold on_store. by rewrite Hstore.
Qed.
End OneRequest.

(** ** The properties above, on examples *)


Lemma listBuckets_exact_witness :
  ("employee" ∈ LSDB.listBuckets LSDBUtil.prefix (Examples.employees Examples.counting_uuid)) /\
  NoDup (LSDB.listBuckets LSDBUtil.prefix (Examples.employees Examples.counting_uuid)).
Proof.
  destruct (listBuckets_exact LSDBUtil.prefix (Examples.employees Examples.counting_uuid))
    as [Hiff Hnodup].
  split; [|exact Hnodup].
  apply Hiff. rewrite employees_storage, lookup_singleton_eq. eauto.
Defined.

Lemma createBucket_keeps_data_witness :
  let w := Examples.employees Examples.counting_uuid in
  LSDB._load LSDBUtil.prefix "employee" (LSDB.createBucket LSDBUtil.prefix "employee" w)
    = LSDB._load LSDBUtil.prefix "employee" w /\
  ("orders" ∈ LSDB.listBuckets LSDBUtil.prefix
                (LSDB.createBucket LSDBUtil.prefix "orders" w)).
Proof.
  intros w.
  destruct (createBucket_keeps_data LSDBUtil.prefix "employee" w) as (_ & Hload & _).
  destruct (createBucket_keeps_data LSDBUtil.prefix "orders" w) as (_ & _ & Hlist).
  split; [apply Hload|]. apply Hlist. by left.
Defined.

Lemma deleteBucket_removes_witness :
  let w := LSDB.createBucket LSDBUtil.prefix "orders" (Examples.employees Examples.counting_uuid) in
  ("orders" ∉ LSDB.listBuckets LSDBUtil.prefix
                (LSDB.deleteBucket LSDBUtil.prefix "orders" w)) /\
  LSDB._load LSDBUtil.prefix "employee" (LSDB.deleteBucket LSDBUtil.prefix "orders" w)
    = LSDB._load LSDBUtil.prefix "employee" w.
Proof.
  intros w.
  destruct (deleteBucket_removes LSDBUtil.prefix "orders" w) as (Hgone & _ & Hother & _).
  split; [exact Hgone|].
  apply (Hother "employee"). discriminate.
Defined.

Lemma delete_removes_matching_witness :
  let uuid := Examples.counting_uuid in
  let w := Examples.employees uuid in
  let acc := fst (LSDB.bucket uuid LSDBUtil.prefix "employee" w) in
  let w1 := snd (LSDB.bucket uuid LSDBUtil.prefix "employee" w) in
  let w2 := snd (LSDB.delete acc (Val (JStr (uuid 1%nat))) w1) in
  map (fun d : doc => d !! "name") (LSDB._load LSDBUtil.prefix "employee" w2)
    = [Some (JStr "Alice"); Some (JStr "Charlie"); Some (JStr "David")] /\
  LSDB._load LSDBUtil.prefix "orders" w2 = LSDB._load LSDBUtil.prefix "orders" w.
Proof.
  intros uuid w acc w1 w2.
  destruct (delete_removes_matching uuid LSDBUtil.prefix "employee"
              (Val (JStr (uuid 1%nat))) w) as (_ & Hload & _ & Hother & _).
  split.
  - fold acc w1 w2 in Hload. rewrite Hload. vm_compute. reflexivity.
  - apply (Hother "orders"). discriminate.
Defined.

Lemma insert_then_delete_restores_witness :
  let uuid := Examples.counting_uuid in
  let w := World ∅ 0 in
  let item : doc := {[ "name" := JStr "Mir" ]} in
  let acc := fst (LSDB.bucket uuid LSDBUtil.prefix "users" w) in
  let w1 := snd (LSDB.bucket uuid LSDBUtil.prefix "users" w) in
  let newItem := fst (LSDB.insert acc item w1) in
  let w2 := snd (LSDB.insert acc item w1) in
  LSDB._load LSDBUtil.prefix "users" w2 = [newItem] /\
  LSDB._load LSDBUtil.prefix "users"
    (snd (LSDB.delete acc (LSDB.id_of newItem) w2)) = [].
Proof.
  intros uuid w item acc w1 newItem w2.
  destruct (insert_then_delete_restores uuid LSDBUtil.prefix "users" item w)
    as (Hload & _ & _ & Hback).
  - reflexivity.
  - intros x Hx. by apply elem_of_nil in Hx.
  - split; [exact Hload | exact Hback].
Defined.

Lemma import_without_overwrite_appends_witness :
  let uuid := Examples.counting_uuid in
  let w := Examples.employees uuid in
  let snapshot := fst (LSDBUtil.dump uuid (Some "employee") w) in
  let w1 := snd (LSDBUtil.dump uuid (Some "employee") w) in
  length (LSDB._load LSDBUtil.prefix "employee"
            (LSDBUtil.import uuid snapshot false w1)) = 8%nat.
Proof.
  intros uuid w snapshot w1.
  destruct (import_without_overwrite_appends uuid "employee" w) as [Hload _].
  - discriminate.
  - intros key data d Hkey _ Hd.
    unfold w in Hkey. rewrite employees_storage in Hkey.
    apply lookup_singleton_Some in Hkey as [<- <-].
    rewrite !elem_of_cons, elem_of_nil in Hd.
    destruct Hd as [-> | [-> | [-> | [-> | []]]]]; vm_compute; eauto.
  - fold snapshot w1 in Hload. rewrite Hload.
    change (String.eqb "employee" "__proto__") with false. cbv iota.
    rewrite length_app.
    unfold w. by rewrite employees_storage || rewrite (employees_stored uuid).
Defined.

Lemma where_where_witness :
  let data := [ JNum 1; JNum 5; JNum 8; JNum 12 ] in
  let above (n : Z) (j : json) : result bool := Ok (js_gt (Val j) (Val (JNum n))) in
  let below (n : Z) (j : json) : result bool := Ok (js_lt (Val j) (Val (JNum n))) in
  LSQuery.where_ (fun x => try a <- above 2%Z x in if a then below 10%Z x else Ok false)
    data = Ok [ JNum 5; JNum 8 ].
Proof.
  intros data above below.
  apply (where_where (above 2%Z) (below 10%Z) data [ JNum 5; JNum 8; JNum 12 ]);
    reflexivity.
Defined.

Lemma orderBy_twice_witness :
  let age (u : doc) := of_option (u !! "age") in
  let data := [Examples.alice; Examples.bob; Examples.charlie; Examples.david] in
  LSQuery.orderBy age (LSQuery.orderBy age data) = LSQuery.orderBy age data.
Proof.
  intros age data.
  apply (orderBy_twice age data).
  left. intros a Ha. unfold data in Ha.
  rewrite !elem_of_cons, elem_of_nil in Ha.
  destruct Ha as [-> | [-> | [-> | [-> | []]]]]; eexists; reflexivity.
Defined.

Lemma firstOrDefault_first_match_witness :
  let data := [ JObj Examples.alice; JObj Examples.bob ] in
  let in_hr (j : json) :=
    match j with
    | JObj d => loose_eq (of_option (d !! "group")) (Val (JStr "HR"))
    | _ => false
    end in
  LSQueryData.firstOrDefault (Some (fun x => Ok (in_hr x))) data = Ok (JObj Examples.bob) /\
  LSQueryData.firstOrDefault None data = Ok (JObj Examples.alice).
Proof.
  intros data in_hr.
  destruct (firstOrDefault_first_match in_hr data) as (Hfirst & Hfind & _).
  - intros x Hx. unfold data in Hx. rewrite !elem_of_cons, elem_of_nil in Hx.
    destruct Hx as [-> | [-> | []]]; reflexivity.
  - split; [rewrite Hfind | rewrite Hfirst]; vm_compute; reflexivity.
Defined.

Lemma orWhere_alone_is_where_witness :
  let uuid := Examples.counting_uuid in
  let q := LSDBQuery.where_ "age" "gte" (Val (JNum 35)) (LSDBQuery.new "employee") in
  LSDBQuery.execute uuid (LSDBQuery.orWhere "group" "eq" (Val (JStr "IT")) q)
    (Examples.employees uuid)
  = LSDBQuery.execute uuid (LSDBQuery.where_ "group" "eq" (Val (JStr "IT")) q)
      (Examples.employees uuid) /\
  fst (LSDBQuery.execute uuid
         (LSDBQuery.orWhere "group" "eq" (Val (JStr "IT")) q) (Examples.employees uuid))
  = Ok [].
Proof.
  intros uuid q. split; [|vm_compute; reflexivity].
  apply (orWhere_alone_is_where uuid "group" "eq" (Val (JStr "IT")) q).
  reflexivity.
Defined.

Lemma where_narrows_witness :
  let uuid := Examples.counting_uuid in
  let q := LSDBQuery.where_ "address.city" "eq" (Val (JStr "London"))
             (LSDBQuery.new "employee") in
  let stored (d : doc) (n : nat) : doc := d ∪ {[ "id" := JStr (uuid n) ]} in
  let wide := [ stored Examples.alice 0%nat; stored Examples.charlie 2%nat;
                stored Examples.david 3%nat ] in
  let narrow := [ stored Examples.alice 0%nat; stored Examples.david 3%nat ] in
  narrow = List.filter
             (fun item => Spec.matches item
                (LSDBQuery.Filter "group" "eq" (Val (JStr "IT")))) wide.
Proof.
  intros uuid q stored wide narrow.
  apply (where_narrows uuid "group" "eq" (Val (JStr "IT")) q
           (Examples.employees uuid) narrow wide);
    vm_compute; reflexivity.
Defined.

Lemma eq_null_matches_missing_witness :
  LSDBQuery.test (Val (JObj Examples.alice))
    (LSDBQuery.Filter "address.zip" "eq" (Val JNull)) = Ok true /\
  LSDBQuery.test (Val (JObj Examples.alice))
    (LSDBQuery.Filter "address.zip" "neq" (Val JNull)) = Ok false.
Proof.
  apply (proj2 eq_null_matches_missing (Val (JObj Examples.alice)) "address.zip").
  reflexivity.
Defined.

Lemma createData_returns_record_witness :
  let db : IDb.database := {[ "employee" := IDb.ObjectStore ∅ 1 ]} in
  let data : doc := {[ "name" := JStr "Eve" ]} in
  fst (IDbUtil.createData "employee" data db)
    = Some (Val (JObj (<["id" := JNum 1]> data))) /\
  IDbUtil.createData "employee" (<["id" := JNum 1]> data)
    (snd (IDbUtil.createData "employee" data db))
    = (None, snd (IDbUtil.createData "employee" data db)).
Proof.
  intros db data. split.
  - apply (proj1 (createData_returns_record "employee" data db
                    (IDb.ObjectStore ∅ 1) eq_refl)); reflexivity.
  - apply (proj2 (proj2 (createData_returns_record "employee"
                           (<["id" := JNum 1]> data)
                           (snd (IDbUtil.createData "employee" data db))
                           (IDb.ObjectStore
                              {[ IDb.KNum 1 := <["id" := JNum 1]> data ]} 2)
                           eq_refl))
             (IDb.KNum 1)); [reflexivity|].
    vm_compute. eauto.
Defined.

Lemma deleteData_removes_witness :
  let db : IDb.database :=
    {[ "employee" :=
         IDb.ObjectStore {[ IDb.KNum 1 := <["id" := JNum 1]> Examples.alice ]} 2 ]} in
  fst (IDbUtil.deleteData "employee" (Val (JNum 1)) db) = Some true /\
  IDb.get "employee" (Val (JNum 1))
    (snd (IDbUtil.deleteData "employee" (Val (JNum 1)) db)) = Ok Undefined.
Proof.
  intros db.
  destruct (deleteData_removes "employee" (Val (JNum 1)) db
              (IDb.ObjectStore {[ IDb.KNum 1 := <["id" := JNum 1]> Examples.alice ]} 2)
              (IDb.KNum 1) eq_refl eq_refl) as (Hret & Hget & _).
  split; [exact Hret | exact Hget].
Defined.

Lemma updateData_needs_id_witness :
  let db : IDb.database := {[ "employee" := IDb.ObjectStore ∅ 1 ]} in
  fst (IDbUtil.updateData "employee" {[ "name" := JStr "Eve" ]} db) = None /\
  fst (IDbUtil.updateData "employee" {[ "id" := JNum 7; "name" := JStr "Eve" ]} db)
    = Some (Val (JObj {[ "id" := JNum 7; "name" := JStr "Eve" ]})).
Proof.
  intros db.
  destruct (updateData_needs_id "employee" {[ "name" := JStr "Eve" ]} db
              (IDb.ObjectStore ∅ 1) eq_refl) as [_ Hnone].
  destruct (updateData_needs_id "employee"
              {[ "id" := JNum 7; "name" := JStr "Eve" ]} db
              (IDb.ObjectStore ∅ 1) eq_refl) as [Hsome _].
  split.
  - apply Hnone. reflexivity.
  - apply (Hsome (IDb.KNum 7)). reflexivity.
Defined.

Lemma dump_import_keeps_records_witness :
  let db : IDb.database :=
    {[ "employee" :=
         IDb.ObjectStore {[ IDb.KNum 1 := <["id" := JNum 1]> Examples.alice ]} 2 ]} in
  exists obj,
    IDbMore.dump ["employee"] db = Ok (Text obj) /\
    is_Some (obj !! "employee") /\
    fst (IDbMore.import obj db) = Ok tt /\
    IDb.records <$> snd (IDbMore.import obj db) = IDb.records <$> db.
Proof.
  intros db.
  destruct (dump_import_keeps_records ["employee"] db)
    as (obj & Hdump & Hhas & _ & Hok & Hrec & _).
  - intros b store Hb k d Hk.
    apply lookup_singleton_Some in Hb as [<- <-]. cbn in Hk.
    apply lookup_singleton_Some in Hk as [<- <-]. reflexivity.
  - intros b Hb. apply list_elem_of_singleton in Hb as ->.
    unfold db. rewrite lookup_singleton_eq. eauto.
  - exists obj. split; [exact Hdump|]. split; [|split; [exact Hok | exact Hrec]].
    destruct (Hhas "employee") as (items & Hitems & _);
      [by left | discriminate | eauto].
Defined.

Lemma import_creates_no_bucket_witness :
  let db : IDb.database := {[ "employee" := IDb.ObjectStore ∅ 1 ]} in
  let obj : gmap string (list doc) :=
    {[ "project" := [ {[ "name" := JStr "Project X" ]} ] ]} in
  is_ok (fst (IDbMore.import obj db)) = false.
Proof.
  intros db obj.
  apply (proj2 (import_creates_no_bucket obj db) "project").
  - unfold obj. rewrite lookup_singleton_eq. eauto.
  - reflexivity.
Defined.

Lemma transaction_of_one_request_witness :
  let db : IDb.database := {[ "employee" := IDb.ObjectStore ∅ 1 ]} in
  let data : doc := {[ "name" := JStr "Charlie" ]} in
  snd (IDb.transaction ["employee"] [IDb.Add "employee" data] db)
    = snd (IDb.insert "employee" data db).
Proof.
  intros db data.
  apply (transaction_of_one_request "employee" data Undefined db).
  unfold db. rewrite lookup_singleton_eq. eauto.
Defined.

Lemma import_overwrite_replaces_witness :
  let uuid := Examples.counting_uuid in
  let mir : doc := {[ "id" := JStr "a"; "name" := JStr "Mir" ]} in
  let data : gmap string (list doc) := {[ "employee" := [mir] ]} in
  let w' := LSDBUtil.import uuid (Text data) true (Examples.employees uuid) in
  LSDB._load LSDBUtil.prefix "employee" w' = [mir] /\
  LSDB._load LSDBUtil.prefix "orders" w'
    = LSDB._load LSDBUtil.prefix "orders" (Examples.employees uuid).
Proof.
  intros uuid mir data w'.
  destruct (import_overwrite_replaces uuid data (Examples.employees uuid)) as [Hin Hout].
  - intros b items d Hb Hd.
    apply lookup_singleton_Some in Hb as [<- <-].
    apply list_elem_of_singleton in Hd as ->. vm_compute. eauto.
  - split.
    + apply Hin. unfold data. apply lookup_singleton_eq.
    + apply Hout. reflexivity.
Defined.

Lemma empty_orGroup_matches_nothing_witness :
  let uuid := Examples.counting_uuid in
  fst (LSDBQuery.execute uuid
         (LSDBQuery.orGroup [] (LSDBQuery.new "employee"))
         (Examples.employees uuid)) = Ok [] /\
  @nil doc = [].
Proof.
  intros uuid.
  assert (fst (LSDBQuery.execute uuid
                 (LSDBQuery.orGroup [] (LSDBQuery.new "employee"))
                 (Examples.employees uuid)) = Ok []) as H
    by (vm_compute; reflexivity).
  split; [exact H|].
  exact (empty_orGroup_matches_nothing uuid (LSDBQuery.new "employee")
           (Examples.employees uuid) [] eq_refl H).
Defined.
